(** * ProfileCheckInterpolation: a shallow embedding of the interpolation
    consistency check of ufo's profile QC ([ProfileCheckInterpolation::runCheck])
    and the proofs of its specification. *)

From Stdlib Require Import ZArith String List Bool Lia Permutation.
From Stdlib Require Import QArith Qround Qabs.
Import ListNotations.
Open Scope Z_scope.

(** ** Vectors indexed by C++ [int] *)

(** [v[i]] for an [int] index. Out-of-range reads are undefined behaviour
    in C++; the model returns the default [d]. *)
Definition get {A} (l : list A) (i : Z) (d : A) : A :=
  if i <? 0 then d else nth (Z.to_nat i) l d.

Fixpoint upd_nat {A} (l : list A) (k : nat) (f : A -> A) : list A :=
  match l, k with
  | [], _ => []
  | x :: r, O => f x :: r
  | x :: r, S k' => x :: upd_nat r k' f
  end.

(** [v[i] = f(v[i])] for an [int] index (out of range: no change). *)
Definition upd {A} (l : list A) (i : Z) (f : A -> A) : list A :=
  if i <? 0 then l else upd_nat l (Z.to_nat i) f.

(** ** The arithmetic of [float]

    The check computes in single precision. The model keeps the operations
    abstract, so that every theorem below holds for IEEE floats as well as for
    any other carrier; the concrete instance used for test inputs is [Q]. *)
Class FloatOps (F : Type) := {
  fadd : F -> F -> F;
  fsub : F -> F -> F;
  fmul : F -> F -> F;
  fdiv : F -> F -> F;
  fabs : F -> F;                 (** [std::abs] *)
  flt : F -> F -> bool;          (** [a < b] *)
  feq : F -> F -> bool;          (** [a == b] *)
  fone : F;                      (** [1.0] *)
  missingValueFloat : F;         (** [util::missingValue<float>()] *)
  round_hPa : F -> Z;            (** [int(std::round(p * 0.01))] *)
  hPa_to_Pa : Z -> F             (** [BigGaps_[i] * 100.0] stored in a float *)
}.

(** The bits of [ufo::FlagsProfile] used by the check. *)
Class FlagsProfile := {
  SurfaceLevelFlag : Z;
  InterpolationFlag : Z
}.

(** ** Data of one profile *)

(** The vectors read from the profile data handler. *)
Record Inputs (F : Type) := mkInputs {
  numLevelsToCheck : Z;
  pressures : list F;
  tObs : list F;
  tBkg : list F;
  tObsCorrection : list F
}.
Arguments mkInputs {F}.

(** The options of the check ([ICheck_*]) together with the members
    [StandardLevels_] and [BigGaps_] of [ProfileStandardLevels]. *)
Record Options (F : Type) := mkOptions {
  ICheck_BigGapInit : F;
  ICheck_TolRelaxPThresh : F;
  ICheck_TolRelax : F;
  ICheck_TInterpTol : F;
  StandardLevels_ : list Z;
  BigGaps_ : list Z
}.
Arguments mkOptions {F}.

(** The members computed by [ProfileStandardLevels::calcStdLevels]. *)
Record Classification (F : Type) := mkClassification {
  NumStd_ : Z;
  NumSig_ : Z;
  StdLev_ : list Z;
  SigBelow_ : list Z;
  SigAbove_ : list Z;
  LogP_ : list F
}.
Arguments mkClassification {F}.

(** [ProfileStandardLevels::calcStdLevels] (not part of this file's source):
    an interface, so that the theorems hold for whatever classification it
    produces from [numLevelsToCheck], the pressures, the corrected
    temperatures and the flags. *)
Class StandardLevels (F : Type) := {
  calcStdLevels : Z -> list F -> list F -> list Z -> Classification F
}.

(** [ProfileDataHandler] (not part of this file's source): the store of the
    profile's variables, as an interface with [set] and [get<int>] and
    [get<float>]. Its laws are stated below as [handler_laws]. *)
Class DataHandler (F H : Type) := {
  set_int : string -> list Z -> H -> H;
  set_float : string -> list F -> H -> H;
  get_int : string -> H -> list Z;
  get_float : string -> H -> list F
}.

(** The [ufo::VariableNames] that [fillValidator] writes. *)
Record VarNames := mkVarNames {
  name_StdLev : string;
  name_SigAbove : string;
  name_SigBelow : string;
  name_IndStd : string;
  name_LevErrors : string;
  name_tInterp : string;
  name_LogP : string;
  name_NumStd : string;
  name_NumSig : string
}.

Definition names_list (vn : VarNames) : list string :=
  [name_StdLev vn; name_SigAbove vn; name_SigBelow vn; name_IndStd vn; name_LevErrors vn;
   name_tInterp vn; name_LogP vn; name_NumStd vn; name_NumSig vn].

(** The mutable state of [runCheck]: the flags and counters of the data
    handler and the members [LevErrors_] and [tInterp_]. *)
Record State (F : Type) := mkState {
  tFlags : list Z;
  NumAnyErrors : list Z;
  NumInterpErrors : list Z;
  NumInterpErrObs : list Z;
  LevErrors_ : list Z;
  tInterp_ : list F
}.
Arguments mkState {F}.
Arguments tFlags {F}.
Arguments NumAnyErrors {F}.
Arguments NumInterpErrors {F}.
Arguments NumInterpErrObs {F}.
Arguments LevErrors_ {F}.
Arguments tInterp_ {F}.
Arguments numLevelsToCheck {F}.
Arguments pressures {F}.
Arguments tObs {F}.
Arguments tBkg {F}.
Arguments tObsCorrection {F}.
Arguments ICheck_BigGapInit {F}.
Arguments ICheck_TolRelaxPThresh {F}.
Arguments ICheck_TolRelax {F}.
Arguments ICheck_TInterpTol {F}.
Arguments StandardLevels_ {F}.
Arguments BigGaps_ {F}.
Arguments NumStd_ {F}.
Arguments NumSig_ {F}.
Arguments StdLev_ {F}.
Arguments SigBelow_ {F}.
Arguments SigAbove_ {F}.
Arguments LogP_ {F}.

(** The warnings of the preflight validation. *)
Definition warn_empty : string :=
  "At least one vector is empty. Check will not be performed.".
Definition warn_size : string :=
  "Not all vectors have the same size. Check will not be performed.".

(** [oops::anyVectorEmpty] and [oops::allVectorsSameSize] on the five vectors. *)
Definition anyVectorEmpty {F} (p o b : list F) (f : list Z) (c : list F) : bool :=
  (length p =? 0)%nat || (length o =? 0)%nat || (length b =? 0)%nat
  || (length f =? 0)%nat || (length c =? 0)%nat.

Definition allVectorsSameSize {F} (p o b : list F) (f : list Z) (c : list F) : bool :=
  (length o =? length p)%nat && (length b =? length p)%nat
  && (length f =? length p)%nat && (length c =? length p)%nat.

(** ** Concrete carrier and fixtures for test inputs *)

Definition Q_round_hPa (p : Q) : Z :=
  let x := (p * (1 # 100))%Q in
  if Qle_bool 0 x then Qfloor (x + (1 # 2)) else - Qfloor (- x + (1 # 2)).

Definition Q_float : FloatOps Q := {|
  fadd := Qplus; fsub := Qminus; fmul := Qmult; fdiv := Qdiv; fabs := Qabs;
  flt := fun a b => negb (Qle_bool b a); feq := Qeq_bool; fone := 1%Q;
  missingValueFloat := (- inject_Z (10 ^ 38))%Q;
  round_hPa := Q_round_hPa;
  hPa_to_Pa := fun g => inject_Z (g * 100)
|}.

Definition flags_fix : FlagsProfile := {| SurfaceLevelFlag := 1; InterpolationFlag := 2 |}.

(** A three-level profile at 1000, 850 and 700 hPa whose middle level is
    10 K warmer than the interpolation of its neighbours. *)
Definition inputs_fix : Inputs Q :=
  mkInputs 3 [100000; 85000; 70000]%Q [280; 285; 270]%Q [280; 276; 270]%Q [0; 0; 0]%Q.

Definition options_fix : Options Q :=
  mkOptions 25000%Q 20000%Q 2%Q 8%Q [1000; 850; 700] [250; 250; 250].

Definition cls_fix : Classification Q :=
  mkClassification 1 3 [1] [0] [2] [0; 1 # 2; 1]%Q.

Definition classifier_fix : StandardLevels Q := {| calcStdLevels := fun _ _ _ _ => cls_fix |}.

Definition state_fix : State Q := mkState [0; 0; 0] [0] [0] [0] [] [].

(** A six-level profile with standard levels 1 and 4 bracketed by (0, 2)
    and (3, 5); level 1 is inconsistent, level 4 is not. *)
Definition inputs6 : Inputs Q :=
  mkInputs 6 [100000; 92500; 85000; 77500; 70000; 62500]%Q [280; 290; 270; 265; 262; 260]%Q
           [280; 276; 270; 265; 262; 260]%Q [0; 0; 0; 0; 0; 0]%Q.

Definition cls6 : Classification Q :=
  mkClassification 2 4 [1; 4] [0; 3] [2; 5] [0; 1 # 2; 1; 3 # 2; 2; 5 # 2]%Q.

Definition classifier6 : StandardLevels Q := {| calcStdLevels := fun _ _ _ _ => cls6 |}.

Definition state6 : State Q := mkState [0; 0; 0; 0; 0; 0] [0] [0] [0] [] [].

(** A data handler as an association list, newest entry first. *)
Inductive hval := HInt (v : list Z) | HFloat (v : list Q).

Definition assoc_find (nm : string) (h : list (string * hval)) : option hval :=
  match find (fun p => String.eqb (fst p) nm) h with Some (_, v) => Some v | None => None end.

Definition assoc_handler : DataHandler Q (list (string * hval)) := {|
  set_int := fun nm v h => (nm, HInt v) :: h;
  set_float := fun nm v h => (nm, HFloat v) :: h;
  get_int := fun nm h => match assoc_find nm h with Some (HInt v) => v | _ => [] end;
  get_float := fun nm h => match assoc_find nm h with Some (HFloat v) => v | _ => [] end
|}.

Definition names_fix : VarNames :=
  mkVarNames "StdLev" "SigAbove" "SigBelow" "IndStd" "LevErrors" "tInterp" "LogP" "NumStd" "NumSig".

(** The reference band table: 50 hPa gaps at 150 and 100 hPa. *)
Definition options_bands : Options Q :=
  mkOptions 25000%Q 20000%Q 2%Q 8%Q [1000; 850; 700; 500; 400; 300; 250; 200; 150; 100]
            [250; 250; 250; 250; 250; 250; 250; 250; 50; 50].

(** A single standard level at 100 hPa. *)
Definition cls_100 : Classification Q := mkClassification 1 3 [0] [-1] [-1] [0]%Q.

Section Check.

Context {F : Type} `{FO : FloatOps F} `{FP : FlagsProfile} `{SL : StandardLevels F}.

(** Modelled from the spec: [ProfileCheckBase::correctVector] (not under src/):
    the corrected observation is the observation plus its correction. *)
Definition correctVector (v1 v2 : list F) : list F :=
  map (fun '(a, b) => fadd a b) (combine v1 v2).

(** The BigGap loop of [runCheck]: the first [i] with
    [StandardLevels_[i] <= IPStd] gives [BigGaps_[i] * 100.0]; [i] is the
    index of the head of [ls] in [StandardLevels_]. *)
Fixpoint bigGap_loop (init : F) (gaps : list Z) (IPStd : Z) (i : nat) (ls : list Z) : F :=
  match ls with
  | [] => init
  | l :: ls' => if l <=? IPStd then hPa_to_Pa (nth i gaps 0) else bigGap_loop init gaps IPStd (S i) ls'
  end.

Definition bigGap (init : F) (levels gaps : list Z) (IPStd : Z) : F :=
  bigGap_loop init gaps IPStd O levels.

(** What the body of the level loop reads. *)
Record Env := mkEnv {
  e_opts : Options F;
  e_pressures : list F;
  e_tObsFinal : list F;
  e_cls : Classification F
}.

Definition incr0 (c : list Z) : list Z := upd c 0 (fun x => x + 1).

Definition orFlag (x : Z) : Z := Z.lor x InterpolationFlag.

(** One iteration [jlevstd] of the level loop; the pair carries the local
    tally [NumErrors]. The tolerance test reads back [tInterp_[jlev]] just
    written, which is the value [tI] (for an in-range [jlev]; out of range
    the C++ access is undefined). *)
Definition step (env : Env) (acc : State F * Z) (jlevstd : nat) : State F * Z :=
  let '(st, NumErrors) := acc in
  let opts := e_opts env in
  let cls := e_cls env in
  let pressures := e_pressures env in
  let tObsFinal := e_tObsFinal env in
  let LogP := LogP_ cls in
  let jlev := nth jlevstd (StdLev_ cls) 0 in
  if negb (Z.land (get (tFlags st) jlev 0) SurfaceLevelFlag =? 0) then acc else
  let SigB := nth jlevstd (SigBelow_ cls) 0 in
  let SigA := nth jlevstd (SigAbove_ cls) 0 in
  let PStd := get pressures jlev missingValueFloat in
  let IPStd := round_hPa PStd in
  let BigGap := bigGap (ICheck_BigGapInit opts) (StandardLevels_ opts) (BigGaps_ opts) IPStd in
  if NumSig_ cls <? Z.max 3 (Z.quot (NumStd_ cls) 2) then acc else
  if (SigB =? -1) || (SigA =? -1) then acc else
  if flt BigGap (fsub (get pressures SigB missingValueFloat) PStd)
     || flt BigGap (fsub PStd (get pressures SigA missingValueFloat))
     || feq (get LogP SigB missingValueFloat) (get LogP SigA missingValueFloat) then acc else
  let Ratio := fdiv (fsub (get LogP jlev missingValueFloat) (get LogP SigB missingValueFloat))
                    (fsub (get LogP SigA missingValueFloat) (get LogP SigB missingValueFloat)) in
  let tI := fadd (get tObsFinal SigB missingValueFloat)
                 (fmul (fsub (get tObsFinal SigA missingValueFloat)
                             (get tObsFinal SigB missingValueFloat)) Ratio) in
  let st1 := mkState (tFlags st) (NumAnyErrors st) (NumInterpErrors st)
                     (NumInterpErrObs st) (LevErrors_ st)
                     (upd (tInterp_ st) jlev (fun _ => tI)) in
  let TolRelax := if flt PStd (ICheck_TolRelaxPThresh opts) then ICheck_TolRelax opts else fone in
  if flt (fmul (ICheck_TInterpTol opts) TolRelax)
         (fabs (fsub (get tObsFinal jlev missingValueFloat) tI)) then
    (mkState (upd (upd (upd (tFlags st1) jlev orFlag) SigB orFlag) SigA orFlag)
             (incr0 (NumAnyErrors st1)) (incr0 (NumInterpErrors st1))
             (NumInterpErrObs st1)
             (upd (upd (upd (LevErrors_ st1) jlev (fun x => x + 1))
                       SigB (fun x => x + 1)) SigA (fun x => x + 1))
             (tInterp_ st1),
     NumErrors + 1)
  else (st1, NumErrors).

(** The level loop over the standard-level positions [js]. *)
Definition interp_loop (env : Env) (js : list nat) (acc : State F * Z) : State F * Z :=
  fold_left (step env) js acc.

(** The loop followed by the per-profile counter update. *)
Definition run_levels (env : Env) (js : list nat) (st : State F) : State F :=
  let '(st1, NumErrors) := interp_loop env js (st, 0) in
  if NumErrors >? 0 then
    mkState (tFlags st1) (NumAnyErrors st1) (NumInterpErrors st1)
            (incr0 (NumInterpErrObs st1)) (LevErrors_ st1) (tInterp_ st1)
  else st1.

Definition valid_inputs (inp : Inputs F) (flags : list Z) : bool :=
  negb (anyVectorEmpty (pressures inp) (tObs inp) (tBkg inp) flags (tObsCorrection inp))
  && allVectorsSameSize (pressures inp) (tObs inp) (tBkg inp) flags (tObsCorrection inp).

Definition make_env (inp : Inputs F) (opts : Options F) (flags : list Z) : Env :=
  let tObsFinal := correctVector (tObs inp) (tObsCorrection inp) in
  mkEnv opts (pressures inp) tObsFinal
        (calcStdLevels (numLevelsToCheck inp) (pressures inp) tObsFinal flags).

Definition std_positions (env : Env) : list nat :=
  seq 0 (Z.to_nat (NumStd_ (e_cls env))).

(** [LevErrors_.assign(n, -1)] and [tInterp_.assign(n, missingValueFloat)]. *)
Definition init_results (n : Z) (st : State F) : State F :=
  mkState (tFlags st) (NumAnyErrors st) (NumInterpErrors st) (NumInterpErrObs st)
          (repeat (-1) (Z.to_nat n)) (repeat missingValueFloat (Z.to_nat n)).

(** [runCheck]: the new state and the warnings logged (debug output is not
    modelled). *)
Definition runCheck (inp : Inputs F) (opts : Options F) (st : State F) : State F * list string :=
  if anyVectorEmpty (pressures inp) (tObs inp) (tBkg inp) (tFlags st) (tObsCorrection inp) then
    (st, [warn_empty])
  else if negb (allVectorsSameSize (pressures inp) (tObs inp) (tBkg inp) (tFlags st)
                                   (tObsCorrection inp)) then
    (st, [warn_size])
  else
    let env := make_env inp opts (tFlags st) in
    (run_levels env (std_positions env) (init_results (numLevelsToCheck inp) st), []).

(** ** The decision of one level, separated from its effect

    [level_outcome] is the guard and tolerance logic of the loop body, as a
    function of the flags word it reads; [apply_outcome] is its effect on the
    state. [step_outcome] below proves that [step] is their composition. *)

Definition surf (x : Z) : bool := negb (Z.land x SurfaceLevelFlag =? 0).

Definition jlev_of (env : Env) (j : nat) : Z := nth j (StdLev_ (e_cls env)) 0.
Definition sigB_of (env : Env) (j : nat) : Z := nth j (SigBelow_ (e_cls env)) 0.
Definition sigA_of (env : Env) (j : nat) : Z := nth j (SigAbove_ (e_cls env)) 0.

(** The standard level and its two brackets. *)
Definition triple (env : Env) (j : nat) : list Z := [jlev_of env j; sigB_of env j; sigA_of env j].

Definition PStd_of (env : Env) (j : nat) : F := get (e_pressures env) (jlev_of env j) missingValueFloat.

Definition level_BigGap (env : Env) (j : nat) : F :=
  let opts := e_opts env in
  bigGap (ICheck_BigGapInit opts) (StandardLevels_ opts) (BigGaps_ opts) (round_hPa (PStd_of env j)).

(** The guards after the surface test. *)
Definition guard_skip (env : Env) (j : nat) : bool :=
  let cls := e_cls env in
  let P := e_pressures env in
  let LogP := LogP_ cls in
  (NumSig_ cls <? Z.max 3 (Z.quot (NumStd_ cls) 2))
  || ((sigB_of env j =? -1) || (sigA_of env j =? -1))
  || (flt (level_BigGap env j) (fsub (get P (sigB_of env j) missingValueFloat) (PStd_of env j))
      || flt (level_BigGap env j) (fsub (PStd_of env j) (get P (sigA_of env j) missingValueFloat))
      || feq (get LogP (sigB_of env j) missingValueFloat) (get LogP (sigA_of env j) missingValueFloat)).

Definition skipped (env : Env) (flags : list Z) (j : nat) : bool :=
  surf (get flags (jlev_of env j) 0) || guard_skip env j.

(** The interpolated value at the standard level, eqn 3.3a/3.3b. *)
Definition interp_value (env : Env) (j : nat) : F :=
  let LogP := LogP_ (e_cls env) in
  let T := e_tObsFinal env in
  let b := sigB_of env j in
  let a := sigA_of env j in
  fadd (get T b missingValueFloat)
       (fmul (fsub (get T a missingValueFloat) (get T b missingValueFloat))
             (fdiv (fsub (get LogP (jlev_of env j) missingValueFloat) (get LogP b missingValueFloat))
                   (fsub (get LogP a missingValueFloat) (get LogP b missingValueFloat)))).

Definition tol_relax (env : Env) (j : nat) : F :=
  let opts := e_opts env in
  if flt (PStd_of env j) (ICheck_TolRelaxPThresh opts) then ICheck_TolRelax opts else fone.

Definition tol_exceeded (env : Env) (j : nat) : bool :=
  flt (fmul (ICheck_TInterpTol (e_opts env)) (tol_relax env j))
      (fabs (fsub (get (e_tObsFinal env) (jlev_of env j) missingValueFloat) (interp_value env j))).

Inductive outcome := OSkip | OPass | OFail.

Definition level_outcome (env : Env) (flags : list Z) (j : nat) : outcome :=
  if skipped env flags j then OSkip else if tol_exceeded env j then OFail else OPass.

Definition fails (env : Env) (flags : list Z) (j : nat) : bool :=
  match level_outcome env flags j with OFail => true | _ => false end.

Definition pass_state (env : Env) (j : nat) (st : State F) : State F :=
  mkState (tFlags st) (NumAnyErrors st) (NumInterpErrors st) (NumInterpErrObs st)
          (LevErrors_ st) (upd (tInterp_ st) (jlev_of env j) (fun _ => interp_value env j)).

Definition fail_state (env : Env) (j : nat) (st : State F) : State F :=
  let j0 := jlev_of env j in
  let b := sigB_of env j in
  let a := sigA_of env j in
  mkState (upd (upd (upd (tFlags st) j0 orFlag) b orFlag) a orFlag)
          (incr0 (NumAnyErrors st)) (incr0 (NumInterpErrors st)) (NumInterpErrObs st)
          (upd (upd (upd (LevErrors_ st) j0 (fun x => x + 1)) b (fun x => x + 1)) a (fun x => x + 1))
          (upd (tInterp_ st) j0 (fun _ => interp_value env j)).

Definition apply_outcome (env : Env) (o : outcome) (j : nat) (acc : State F * Z) : State F * Z :=
  let '(st, n) := acc in
  match o with
  | OSkip => acc
  | OPass => (pass_state env j st, n)
  | OFail => (fail_state env j st, n + 1)
  end.

(** The rule for BigGap as the claim words it: the first band whose
    threshold is at least the rounded pressure. *)
Fixpoint bigGap_claim_loop (init : F) (gaps : list Z) (IPStd : Z) (i : nat) (ls : list Z) : F :=
  match ls with
  | [] => init
  | l :: ls' => if IPStd <=? l then hPa_to_Pa (nth i gaps 0) else bigGap_claim_loop init gaps IPStd (S i) ls'
  end.

Definition bigGap_claim (init : F) (levels gaps : list Z) (IPStd : Z) : F :=
  bigGap_claim_loop init gaps IPStd O levels.

(** Two positions of the level loop whose levels are both evaluated
    (at the flags [flags]) have disjoint bracket triples. *)
Definition disjoint_if_evaluated (env : Env) (flags : list Z) (j k : nat) : Prop :=
  skipped env flags j = false -> skipped env flags k = false ->
  forall x, In x (triple env j) -> ~ In x (triple env k).

(** Bitwise inclusion of flag words. *)
Definition bsub (a b : Z) : Prop := Z.lor a b = b.

(** Flags vectors of the same length, the first included bitwise in the second. *)
Definition lsub (f g : list Z) : Prop :=
  length f = length g /\ forall k, (k < length f)%nat -> bsub (nth k f 0) (nth k g 0).

(** Flags vectors that agree on the surface bit everywhere. *)
Definition same_surf (f g : list Z) : Prop := forall x, surf (get f x 0) = surf (get g x 0).

(** The level loop with every decision taken at the flags [F0]. *)
Definition fixed_loop (env : Env) (F0 : list Z) (js : list nat) (acc : State F * Z) : State F * Z :=
  fold_left (fun acc j => apply_outcome env (level_outcome env F0 j) j acc) js acc.

(** The number of positions of [js] that fail at the flags [F0]. *)
Definition num_fails (env : Env) (F0 : list Z) (js : list nat) : nat :=
  length (filter (fails env F0) js).

(** How often level [k] occurs in the bracket triples of the failing positions. *)
Definition lev_hits (env : Env) (F0 : list Z) (js : list nat) (k : nat) : nat :=
  list_sum (map (fun j => if fails env F0 j then count_occ Z.eq_dec (triple env j) (Z.of_nat k) else O) js).

(** The loop invariant tying [LevErrors_] to the flags. *)
Definition lev_inv (st : State F) : Prop :=
  (forall k, (k < length (LevErrors_ st))%nat -> -1 <= nth k (LevErrors_ st) 0)
  /\ (forall k, (k < length (LevErrors_ st))%nat -> (k < length (tFlags st))%nat ->
        nth k (LevErrors_ st) 0 <> -1 -> bsub InterpolationFlag (nth k (tFlags st) 0)).

Context {Hdl : Type} `{DH : DataHandler F Hdl}.

(** [fillValidator]: the members computed by the check are moved into the
    data handler; [NumStd_] and [NumSig_] are published as vectors of
    [numLevelsToCheck] copies. *)
Definition fillValidator (vn : VarNames) (numLevelsToCheck : Z) (cls : Classification F)
           (IndStd_ : list Z) (st : State F) (h : Hdl) : Hdl :=
  let h := set_int (name_StdLev vn) (StdLev_ cls) h in
  let h := set_int (name_SigAbove vn) (SigAbove_ cls) h in
  let h := set_int (name_SigBelow vn) (SigBelow_ cls) h in
  let h := set_int (name_IndStd vn) IndStd_ h in
  let h := set_int (name_LevErrors vn) (LevErrors_ st) h in
  let h := set_float (name_tInterp vn) (tInterp_ st) h in
  let h := set_float (name_LogP vn) (LogP_ cls) h in
  let NumStd := repeat (NumStd_ cls) (Z.to_nat numLevelsToCheck) in
  let NumSig := repeat (NumSig_ cls) (Z.to_nat numLevelsToCheck) in
  let h := set_int (name_NumStd vn) NumStd h in
  set_int (name_NumSig vn) NumSig h.

(** What [fillValidator] relies on of [ProfileDataHandler::set] and [get]:
    a variable reads back what was last set under its name. *)
Definition handler_laws : Prop :=
  (forall nm v h, get_int nm (set_int nm v h) = v)
  /\ (forall nm v h, get_float nm (set_float nm v h) = v)
  /\ (forall nm nm' v h, nm <> nm' -> get_int nm (set_int nm' v h) = get_int nm h)
  /\ (forall nm nm' v h, nm <> nm' -> get_int nm (set_float nm' v h) = get_int nm h)
  /\ (forall nm nm' v h, nm <> nm' -> get_float nm (set_int nm' v h) = get_float nm h)
  /\ (forall nm nm' v h, nm <> nm' -> get_float nm (set_float nm' v h) = get_float nm h).

(** ** Vectors *)

Lemma upd_nat_length {A} (l : list A) k f : length (upd_nat l k f) = length l.
Proof. revert k; induction l as [|x r IH]; intros [|k]; simpl; auto. Qed.

Lemma upd_length {A} (l : list A) i f : length (upd l i f) = length l.
Proof. unfold upd; destruct (i <? 0); auto using upd_nat_length. Qed.

Lemma nth_upd_nat {A} (l : list A) i f k d :
  (k < length l)%nat -> nth k (upd_nat l i f) d = if Nat.eqb k i then f (nth k l d) else nth k l d.
Proof.
  revert i k; induction l as [|x r IH]; intros i k Hk; simpl in *; [lia|].
  destruct i, k; simpl; auto; try (apply IH; lia).
Qed.

Lemma nth_upd {A} (l : list A) i f k d :
  (k < length l)%nat -> nth k (upd l i f) d = if Z.of_nat k =? i then f (nth k l d) else nth k l d.
Proof.
  intros Hk; unfold upd. destruct (i <? 0) eqn:Hi.
  - apply Z.ltb_lt in Hi. replace (Z.of_nat k =? i) with false by (symmetry; apply Z.eqb_neq; lia). auto.
  - apply Z.ltb_ge in Hi. rewrite nth_upd_nat by exact Hk.
    destruct (Nat.eqb k (Z.to_nat i)) eqn:E; destruct (Z.of_nat k =? i) eqn:E'; auto;
      [apply Nat.eqb_eq in E; apply Z.eqb_neq in E' | apply Nat.eqb_neq in E; apply Z.eqb_eq in E']; lia.
Qed.

Lemma upd_nat_comm {A} (l : list A) i k f g :
  (i <> k \/ forall x, f (g x) = g (f x)) -> upd_nat (upd_nat l i f) k g = upd_nat (upd_nat l k g) i f.
Proof.
  revert i k; induction l as [|x r IH]; intros i k H; simpl; auto.
  destruct i as [|i], k as [|k]; simpl; auto.
  - destruct H as [H|H]; [lia|]. rewrite H; reflexivity.
  - rewrite IH; auto. destruct H; [left; lia|right; auto].
Qed.

Lemma upd_comm {A} (l : list A) i k f g :
  (i <> k \/ forall x, f (g x) = g (f x)) -> upd (upd l i f) k g = upd (upd l k g) i f.
Proof.
  intros H; unfold upd.
  destruct (i <? 0) eqn:Hi, (k <? 0) eqn:Hk; auto.
  apply Z.ltb_ge in Hi, Hk. apply upd_nat_comm.
  destruct H as [H|H]; [left; lia | right; exact H].
Qed.

Lemma upd_nat_id {A} (l : list A) i f d :
  ((i < length l)%nat -> f (nth i l d) = nth i l d) -> upd_nat l i f = l.
Proof.
  revert i; induction l as [|x r IH]; intros [|i] H; simpl in *; auto.
  - rewrite H by lia; reflexivity.
  - rewrite IH; auto. intros; apply H; lia.
Qed.

Lemma upd_id {A} (l : list A) i f d :
  (forall k, (k < length l)%nat -> Z.of_nat k = i -> f (nth k l d) = nth k l d) -> upd l i f = l.
Proof.
  intros H; unfold upd. destruct (i <? 0) eqn:Hi; auto.
  apply Z.ltb_ge in Hi. apply upd_nat_id with (d := d). intros Hl; apply H; auto; lia.
Qed.

Lemma get_upd {A} (l : list A) i f x d :
  get (upd l i f) x d = if (x =? i) && (0 <=? x) && (Z.to_nat x <? length l)%nat
                        then f (get l x d) else get l x d.
Proof.
  unfold get. destruct (x <? 0) eqn:Hx.
  - apply Z.ltb_lt in Hx. replace (0 <=? x) with false by (symmetry; apply Z.leb_gt; lia).
    rewrite andb_false_r; reflexivity.
  - apply Z.ltb_ge in Hx. replace (0 <=? x) with true by (symmetry; apply Z.leb_le; lia).
    rewrite andb_true_r.
    destruct (Z.to_nat x <? length l)%nat eqn:Hl.
    + apply Nat.ltb_lt in Hl. rewrite nth_upd by exact Hl. rewrite Z2Nat.id by lia.
      rewrite andb_true_r. reflexivity.
    + apply Nat.ltb_ge in Hl. rewrite andb_false_r.
      rewrite !nth_overflow; auto. rewrite upd_length; exact Hl.
Qed.

Lemma get_upd_other {A} (l : list A) i f x d : x <> i -> get (upd l i f) x d = get l x d.
Proof.
  intros H; rewrite get_upd. replace (x =? i) with false by (symmetry; apply Z.eqb_neq; exact H).
  reflexivity.
Qed.

(** ** [step] as decision and effect *)

Lemma step_outcome env st n j :
  step env (st, n) j = apply_outcome env (level_outcome env (tFlags st) j) j (st, n).
Proof.
  unfold step, level_outcome, skipped, guard_skip, surf, tol_exceeded, tol_relax,
    interp_value, level_BigGap, PStd_of, jlev_of, sigB_of, sigA_of.
  destruct (negb (Z.land _ SurfaceLevelFlag =? 0)); simpl; [reflexivity|].
  destruct (NumSig_ (e_cls env) <? _); simpl; [reflexivity|].
  destruct (_ || _); simpl; [reflexivity|].
  destruct (_ || _ || _); simpl; [reflexivity|].
  destruct (flt _ _); reflexivity.
Qed.

(** ** Flag words only gain bits *)

Lemma bsub_refl a : bsub a a.
Proof. apply Z.lor_diag. Qed.

Lemma bsub_trans a b c : bsub a b -> bsub b c -> bsub a c.
Proof. unfold bsub; intros H1 H2. rewrite <- H2, Z.lor_assoc, H1; reflexivity. Qed.

Lemma bsub_orFlag a : bsub a (orFlag a).
Proof. unfold bsub, orFlag. rewrite Z.lor_assoc, Z.lor_diag; reflexivity. Qed.

Lemma orFlag_idem a : orFlag (orFlag a) = orFlag a.
Proof. unfold orFlag. rewrite <- Z.lor_assoc, Z.lor_diag; reflexivity. Qed.

Lemma bsub_orFlag_mono a b : bsub a b -> bsub (orFlag a) (orFlag b).
Proof.
  unfold bsub, orFlag; intros H.
  rewrite (Z.lor_comm a), <- Z.lor_assoc, (Z.lor_assoc a), H, (Z.lor_comm b),
    Z.lor_assoc, Z.lor_diag; reflexivity.
Qed.

Lemma surf_mono a b : bsub a b -> surf a = true -> surf b = true.
Proof.
  unfold bsub, surf; intros H Ha. apply negb_true_iff, Z.eqb_neq in Ha.
  apply negb_true_iff, Z.eqb_neq. intros Hb. apply Ha.
  rewrite <- H, Z.land_lor_distr_l in Hb. apply Z.lor_eq_0_iff in Hb. tauto.
Qed.

Lemma lsub_refl f : lsub f f.
Proof. split; auto. intros; apply bsub_refl. Qed.

Lemma lsub_trans f g h : lsub f g -> lsub g h -> lsub f h.
Proof.
  intros [L1 H1] [L2 H2]; split; [lia|]. intros k Hk.
  eapply bsub_trans; [apply H1; exact Hk | apply H2; lia].
Qed.

Lemma lsub_upd_or f i : lsub f (upd f i orFlag).
Proof.
  split; [rewrite upd_length; reflexivity|]. intros k Hk. rewrite nth_upd by exact Hk.
  destruct (_ =? _); [apply bsub_orFlag | apply bsub_refl].
Qed.

Lemma lsub_get f g x : lsub f g -> bsub (get f x 0) (get g x 0).
Proof.
  intros [L H]; unfold get. destruct (x <? 0); [apply bsub_refl|].
  destruct (Nat.lt_ge_cases (Z.to_nat x) (length f)) as [Hk|Hk]; [apply H; exact Hk|].
  rewrite !nth_overflow by lia. apply bsub_refl.
Qed.

Lemma fail_state_flags env j st :
  tFlags (fail_state env j st)
  = upd (upd (upd (tFlags st) (jlev_of env j) orFlag) (sigB_of env j) orFlag) (sigA_of env j) orFlag.
Proof. reflexivity. Qed.

Lemma lsub_fail_state env j st : lsub (tFlags st) (tFlags (fail_state env j st)).
Proof.
  rewrite fail_state_flags.
  eapply lsub_trans; [|apply lsub_upd_or]. eapply lsub_trans; [|apply lsub_upd_or]. apply lsub_upd_or.
Qed.

Lemma step_lsub env st n j : lsub (tFlags st) (tFlags (fst (step env (st, n) j))).
Proof.
  rewrite step_outcome. destruct (level_outcome env (tFlags st) j); simpl;
    [apply lsub_refl | apply lsub_refl | apply lsub_fail_state].
Qed.

Lemma interp_loop_cons env j js acc :
  interp_loop env (j :: js) acc = interp_loop env js (step env acc j).
Proof. reflexivity. Qed.

Lemma interp_loop_lsub env js st n : lsub (tFlags st) (tFlags (fst (interp_loop env js (st, n)))).
Proof.
  revert st n; induction js as [|j js IH]; intros st n; [apply lsub_refl|].
  rewrite interp_loop_cons. destruct (step env (st, n) j) as [st1 n1] eqn:E.
  eapply lsub_trans; [|apply IH]. replace st1 with (fst (step env (st, n) j)) by (rewrite E; reflexivity).
  apply step_lsub.
Qed.

Lemma level_outcome_surf env f g j :
  surf (get f (jlev_of env j) 0) = surf (get g (jlev_of env j) 0) ->
  level_outcome env f j = level_outcome env g j.
Proof. intros H; unfold level_outcome, skipped; rewrite H; reflexivity. Qed.

Lemma skipped_mono env f g j : lsub f g -> skipped env f j = true -> skipped env g j = true.
Proof.
  unfold skipped; intros Hs H. apply orb_true_iff in H as [H|H]; apply orb_true_iff; [left|right; exact H].
  eapply surf_mono; [apply lsub_get; exact Hs | exact H].
Qed.

Lemma skipped_outcome env f j : skipped env f j = true -> level_outcome env f j = OSkip.
Proof. unfold level_outcome; intros H; rewrite H; reflexivity. Qed.

Lemma fails_not_skipped env f j : fails env f j = true -> skipped env f j = false.
Proof. unfold fails, level_outcome. destruct (skipped env f j); auto. Qed.

Lemma fails_mono env f g j : lsub f g -> fails env g j = true -> fails env f j = true.
Proof.
  intros Hs H. pose proof (fails_not_skipped _ _ _ H) as Hg.
  destruct (skipped env f j) eqn:Hf.
  - rewrite (skipped_mono env f g j Hs Hf) in Hg; discriminate.
  - unfold fails, level_outcome in *. rewrite Hf. rewrite Hg in H. exact H.
Qed.

Lemma step_not_fail env st n j :
  fails env (tFlags st) j = false ->
  tFlags (fst (step env (st, n) j)) = tFlags st /\ snd (step env (st, n) j) = n.
Proof.
  rewrite step_outcome; unfold fails. destruct (level_outcome env (tFlags st) j); simpl; auto.
  discriminate.
Qed.

Lemma step_fail env st n j :
  fails env (tFlags st) j = true -> step env (st, n) j = (fail_state env j st, n + 1).
Proof.
  rewrite step_outcome; unfold fails. destruct (level_outcome env (tFlags st) j); simpl; auto;
    discriminate.
Qed.

(** ** Claims *)

(** C1 (amended). The gap threshold of a standard level is the gap, converted
    from hPa to Pa, of the first entry of the band table, in the table's
    stored order, whose threshold is at most the level's pressure rounded to
    whole hPa; when no entry qualifies it is the configured initial value. *)
Theorem level_BigGap_first_band env j :
  let IPStd := round_hPa (PStd_of env j) in
  let levels := StandardLevels_ (e_opts env) in
  (exists k, (k < length levels)%nat /\ nth k levels 0 <= IPStd
             /\ (forall k', (k' < k)%nat -> IPStd < nth k' levels 0)
             /\ level_BigGap env j = hPa_to_Pa (nth k (BigGaps_ (e_opts env)) 0))
  \/ ((forall k, (k < length levels)%nat -> IPStd < nth k levels 0)
      /\ level_BigGap env j = ICheck_BigGapInit (e_opts env)).
Proof.
  intros IPStd levels. unfold level_BigGap, bigGap. fold IPStd. fold levels.
  set (init := ICheck_BigGapInit (e_opts env)). set (gaps := BigGaps_ (e_opts env)).
  assert (G : forall ls i,
    (exists k, (k < length ls)%nat /\ nth k ls 0 <= IPStd
       /\ (forall k', (k' < k)%nat -> IPStd < nth k' ls 0)
       /\ bigGap_loop init gaps IPStd i ls = hPa_to_Pa (nth (i + k) gaps 0))
    \/ ((forall k, (k < length ls)%nat -> IPStd < nth k ls 0)
        /\ bigGap_loop init gaps IPStd i ls = init)).
  { induction ls as [|l ls IH]; intros i; simpl.
    - right; split; [intros; lia | reflexivity].
    - destruct (l <=? IPStd) eqn:Hl.
      + apply Z.leb_le in Hl. left; exists O; rewrite Nat.add_0_r.
        split; [lia|]. split; [exact Hl|]. split; [intros; lia | reflexivity].
      + apply Z.leb_gt in Hl. destruct (IH (S i)) as [[k (Hk & Hle & Hlt & He)]|[Hall He]].
        * left; exists (S k). split; [simpl; lia|]. split; [exact Hle|]. split.
          -- intros [|k'] Hk'; [exact Hl | apply Hlt; lia].
          -- rewrite He; f_equal; f_equal; lia.
        * right; split; [intros [|k] Hk; simpl; [lia | apply Hall; lia] | exact He]. }
  destruct (G levels O) as [[k H]|H]; [left; exists k; simpl in H; exact H | right; exact H].
Qed.

(** C2. For a standard level that passes every guard, the value written to
    [tInterp] at that level is [tObsFinal[SigB] + (tObsFinal[SigA] -
    tObsFinal[SigB]) * ((LogP[lev] - LogP[SigB]) / (LogP[SigA] - LogP[SigB]))],
    a function of these five inputs only; no other entry of [tInterp]
    changes. *)
Theorem step_tInterp_written env st n j :
  skipped env (tFlags st) j = false ->
  let T := e_tObsFinal env in
  let LogP := LogP_ (e_cls env) in
  let lev := nth j (StdLev_ (e_cls env)) 0 in
  let SigB := nth j (SigBelow_ (e_cls env)) 0 in
  let SigA := nth j (SigAbove_ (e_cls env)) 0 in
  tInterp_ (fst (step env (st, n) j))
  = upd (tInterp_ st) lev
      (fun _ => fadd (get T SigB missingValueFloat)
                     (fmul (fsub (get T SigA missingValueFloat) (get T SigB missingValueFloat))
                           (fdiv (fsub (get LogP lev missingValueFloat) (get LogP SigB missingValueFloat))
                                 (fsub (get LogP SigA missingValueFloat) (get LogP SigB missingValueFloat))))).
Proof.
  intros H. rewrite step_outcome. unfold level_outcome. rewrite H.
  destruct (tol_exceeded env j); reflexivity.
Qed.

(** C3. For a standard level that passes every guard, the level fails (the
    failure branch runs and the tally grows by one) exactly when
    [|tObsFinal[lev] - tInterp[lev]| > TInterpTol * TolRelax], where
    [TolRelax] is the relaxation factor when the level's pressure is below the
    threshold pressure and [1.0] otherwise; otherwise only [tInterp] is
    written. *)
Theorem step_tolerance_test env st n j :
  skipped env (tFlags st) j = false ->
  let opts := e_opts env in
  let PStd := get (e_pressures env) (nth j (StdLev_ (e_cls env)) 0) missingValueFloat in
  let TolRelax := if flt PStd (ICheck_TolRelaxPThresh opts) then ICheck_TolRelax opts else fone in
  step env (st, n) j
  = if flt (fmul (ICheck_TInterpTol opts) TolRelax)
           (fabs (fsub (get (e_tObsFinal env) (nth j (StdLev_ (e_cls env)) 0) missingValueFloat)
                       (interp_value env j)))
    then (fail_state env j st, n + 1) else (pass_state env j st, n).
Proof.
  intros H. rewrite step_outcome. unfold level_outcome. rewrite H.
  unfold tol_exceeded, tol_relax, PStd_of, jlev_of.
  destruct (flt _ _); reflexivity.
Qed.

Lemma nth_upd3_or f a b c k :
  (k < length f)%nat ->
  nth k (upd (upd (upd f a orFlag) b orFlag) c orFlag) 0
  = if existsb (Z.eqb (Z.of_nat k)) [a; b; c] then Z.lor (nth k f 0) InterpolationFlag else nth k f 0.
Proof.
  intros Hk. rewrite !nth_upd by (rewrite ?upd_length; exact Hk). simpl.
  destruct (Z.of_nat k =? a), (Z.of_nat k =? b), (Z.of_nat k =? c); simpl;
    rewrite ?orFlag_idem; reflexivity.
Qed.

Lemma nth_upd3_incr l a b c k :
  (k < length l)%nat ->
  nth k (upd (upd (upd l a (fun x => x + 1)) b (fun x => x + 1)) c (fun x => x + 1)) 0
  = nth k l 0 + Z.of_nat (count_occ Z.eq_dec [a; b; c] (Z.of_nat k)).
Proof.
  intros Hk. rewrite !nth_upd by (rewrite ?upd_length; exact Hk). simpl.
  destruct (Z.of_nat k =? a) eqn:Ea, (Z.of_nat k =? b) eqn:Eb, (Z.of_nat k =? c) eqn:Ec;
  rewrite ?Z.eqb_eq, ?Z.eqb_neq in Ea, Eb, Ec;
  destruct (Z.eq_dec a (Z.of_nat k)), (Z.eq_dec b (Z.of_nat k)), (Z.eq_dec c (Z.of_nat k));
  simpl; lia.
Qed.

Lemma incr0_cons a r : incr0 (a :: r) = (a + 1) :: r.
Proof. reflexivity. Qed.

Lemma interp_loop_skip env js st n :
  (forall j, In j js -> skipped env (tFlags st) j = true) -> interp_loop env js (st, n) = (st, n).
Proof.
  induction js as [|j js IH]; intros H; [reflexivity|].
  rewrite interp_loop_cons, step_outcome, skipped_outcome by (apply H; left; reflexivity).
  apply IH; intros; apply H; right; assumption.
Qed.

Lemma run_levels_eq env js st :
  run_levels env js st
  = let '(st1, NumErrors) := interp_loop env js (st, 0) in
    mkState (tFlags st1) (NumAnyErrors st1) (NumInterpErrors st1)
            (if NumErrors >? 0 then incr0 (NumInterpErrObs st1) else NumInterpErrObs st1)
            (LevErrors_ st1) (tInterp_ st1).
Proof.
  unfold run_levels. destruct (interp_loop env js (st, 0)) as [[] n].
  destruct (n >? 0); reflexivity.
Qed.

Lemma runCheck_valid inp opts st :
  valid_inputs inp (tFlags st) = true ->
  runCheck inp opts st
  = (let env := make_env inp opts (tFlags st) in
     run_levels env (std_positions env) (init_results (numLevelsToCheck inp) st), []).
Proof.
  unfold valid_inputs, runCheck; intros H. apply andb_true_iff in H as [H1 H2].
  apply negb_true_iff in H1. rewrite H1, H2. reflexivity.
Qed.

Lemma in_std_positions env j : In j (std_positions env) <-> (j < Z.to_nat (NumStd_ (e_cls env)))%nat.
Proof. unfold std_positions; rewrite in_seq; lia. Qed.

(** C4. When a standard level passes every guard and fails the tolerance
    test, the step adds one to the tally, to [NumAnyErrors] and to
    [NumInterpErrors], ORs the interpolation bit into the flags of the level
    and of both brackets (and nowhere else), and adds to [LevErrors] at each
    index the number of times it occurs among the three participating
    indices. *)
Theorem step_fail_bookkeeping env st n j :
  skipped env (tFlags st) j = false -> tol_exceeded env j = true ->
  let st' := fst (step env (st, n) j) in
  let lev := nth j (StdLev_ (e_cls env)) 0 in
  let SigB := nth j (SigBelow_ (e_cls env)) 0 in
  let SigA := nth j (SigAbove_ (e_cls env)) 0 in
  snd (step env (st, n) j) = n + 1
  /\ (forall a r, NumAnyErrors st = a :: r -> NumAnyErrors st' = (a + 1) :: r)
  /\ (forall a r, NumInterpErrors st = a :: r -> NumInterpErrors st' = (a + 1) :: r)
  /\ length (tFlags st') = length (tFlags st)
  /\ (forall k, (k < length (tFlags st))%nat ->
        nth k (tFlags st') 0
        = if existsb (Z.eqb (Z.of_nat k)) [lev; SigB; SigA]
          then Z.lor (nth k (tFlags st) 0) InterpolationFlag else nth k (tFlags st) 0)
  /\ length (LevErrors_ st') = length (LevErrors_ st)
  /\ (forall k, (k < length (LevErrors_ st))%nat ->
        nth k (LevErrors_ st') 0
        = nth k (LevErrors_ st) 0 + Z.of_nat (count_occ Z.eq_dec [lev; SigB; SigA] (Z.of_nat k))).
Proof.
  intros Hs Ht. assert (E : step env (st, n) j = (fail_state env j st, n + 1)).
  { apply step_fail. unfold fails, level_outcome. rewrite Hs, Ht. reflexivity. }
  intros st' lev SigB SigA. unfold st'. rewrite E. simpl.
  split; [reflexivity|].
  split; [intros a r Ha; rewrite Ha; reflexivity|].
  split; [intros a r Ha; rewrite Ha; reflexivity|].
  split; [rewrite !upd_length; reflexivity|].
  split; [intros k Hk; apply nth_upd3_or; exact Hk|].
  split; [rewrite !upd_length; reflexivity|].
  intros k Hk; apply nth_upd3_incr; exact Hk.
Qed.

(** C5. A standard level is skipped without any effect on the state when
    [NumSig < max(3, NumStd/2)], when a bracket is the sentinel [-1], when the
    pressure distance from the lower bracket to the level or from the level
    to the upper bracket exceeds its BigGap, or when the brackets have equal
    log-pressure. Consequently, when the check runs on a profile with
    [NumStd = 0] or whose standard levels are all skipped, flags and counters
    keep their input values, [tInterp] is all missing values and [LevErrors]
    all [-1]. *)
Theorem skip_guards_no_effect :
  (forall env st n j,
     let cls := e_cls env in
     let P := e_pressures env in
     let LogP := LogP_ cls in
     let lev := nth j (StdLev_ cls) 0 in
     let SigB := nth j (SigBelow_ cls) 0 in
     let SigA := nth j (SigAbove_ cls) 0 in
     let PStd := get P lev missingValueFloat in
     let BigGap := level_BigGap env j in
     (NumSig_ cls < Z.max 3 (Z.quot (NumStd_ cls) 2) \/ SigB = -1 \/ SigA = -1
      \/ flt BigGap (fsub (get P SigB missingValueFloat) PStd) = true
      \/ flt BigGap (fsub PStd (get P SigA missingValueFloat)) = true
      \/ feq (get LogP SigB missingValueFloat) (get LogP SigA missingValueFloat) = true) ->
     step env (st, n) j = (st, n))
  /\
  (forall inp opts st,
     valid_inputs inp (tFlags st) = true ->
     let env := make_env inp opts (tFlags st) in
     let N := Z.to_nat (numLevelsToCheck inp) in
     (NumStd_ (e_cls env) = 0
      \/ forall j, (j < Z.to_nat (NumStd_ (e_cls env)))%nat -> skipped env (tFlags st) j = true) ->
     let st' := fst (runCheck inp opts st) in
     tFlags st' = tFlags st /\ NumAnyErrors st' = NumAnyErrors st
     /\ NumInterpErrors st' = NumInterpErrors st /\ NumInterpErrObs st' = NumInterpErrObs st
     /\ tInterp_ st' = repeat missingValueFloat N /\ LevErrors_ st' = repeat (-1) N).
Proof.
  split.
  - intros env st n j cls P LogP lev SigB SigA PStd BigGap H.
    rewrite step_outcome, skipped_outcome; [reflexivity|].
    unfold skipped, guard_skip. apply orb_true_iff; right.
    unfold sigB_of, sigA_of, PStd_of, jlev_of. fold cls P LogP lev SigB SigA PStd BigGap.
    rewrite !orb_true_iff, Z.ltb_lt, !Z.eqb_eq. tauto.
  - intros inp opts st Hv env N Hall st'. unfold st'.
    rewrite runCheck_valid by exact Hv. fold env. simpl. rewrite run_levels_eq.
    rewrite interp_loop_skip.
    + simpl. repeat split; reflexivity.
    + intros j Hj. apply in_std_positions in Hj. destruct Hall as [H0|Hall].
      * rewrite H0 in Hj; simpl in Hj; lia.
      * apply Hall; exact Hj.
Qed.

Lemma interp_loop_tInterp_surface env js (st0 : State F) lev : forall st n,
  lsub (tFlags st0) (tFlags st) -> surf (get (tFlags st0) lev 0) = true ->
  get (tInterp_ st) lev missingValueFloat = missingValueFloat ->
  get (tInterp_ (fst (interp_loop env js (st, n)))) lev missingValueFloat = missingValueFloat.
Proof.
  induction js as [|j js IH]; intros st n Hs Hsurf Hm; [exact Hm|].
  rewrite interp_loop_cons. destruct (step env (st, n) j) as [st1 n1] eqn:E.
  assert (Hs1 : lsub (tFlags st0) (tFlags st1)).
  { eapply lsub_trans; [exact Hs|]. replace st1 with (fst (step env (st, n) j)) by (rewrite E; reflexivity).
    apply step_lsub. }
  apply IH; [exact Hs1 | exact Hsurf|].
  rewrite step_outcome in E.
  destruct (level_outcome env (tFlags st) j) eqn:O; simpl in E; injection E as <- <-; [exact Hm| |];
  (destruct (Z.eq_dec lev (jlev_of env j)) as [Heq|Hne];
   [ exfalso; unfold level_outcome, skipped in O; subst lev;
     rewrite (surf_mono _ _ (lsub_get _ _ _ Hs) Hsurf) in O; simpl in O; discriminate
   | simpl; rewrite get_upd_other by exact Hne; exact Hm ]).
Qed.

(** C6. A standard level whose current flags word has the surface bit is
    skipped by the loop, with no effect on the state; and when the check
    runs, [tInterp] at a level whose input flags have the surface bit stays
    the missing value. *)
Theorem surface_level_never_evaluated :
  (forall env st n j,
     Z.land (get (tFlags st) (nth j (StdLev_ (e_cls env)) 0) 0) SurfaceLevelFlag <> 0 ->
     step env (st, n) j = (st, n))
  /\
  (forall inp opts st lev,
     valid_inputs inp (tFlags st) = true ->
     Z.land (get (tFlags st) lev 0) SurfaceLevelFlag <> 0 ->
     get (tInterp_ (fst (runCheck inp opts st))) lev missingValueFloat = missingValueFloat).
Proof.
  split.
  - intros env st n j H. rewrite step_outcome, skipped_outcome; [reflexivity|].
    unfold skipped, surf, jlev_of. apply Z.eqb_neq in H. rewrite H; reflexivity.
  - intros inp opts st lev Hv H. rewrite runCheck_valid by exact Hv. simpl.
    rewrite run_levels_eq. destruct (interp_loop _ _ _) as [st1 n1] eqn:E. simpl.
    replace st1 with (fst (interp_loop (make_env inp opts (tFlags st))
                             (std_positions (make_env inp opts (tFlags st)))
                             (init_results (numLevelsToCheck inp) st, 0))) by (rewrite E; reflexivity).
    apply interp_loop_tInterp_surface with (st0 := st).
    + apply lsub_refl.
    + unfold surf. apply Z.eqb_neq in H. rewrite H; reflexivity.
    + simpl. unfold get. destruct (lev <? 0); [reflexivity|]. apply nth_repeat.
Qed.

(** C7. When one of the five input vectors is empty, [runCheck] returns the
    state unchanged and logs the empty-vector warning; when none is empty but
    their sizes differ, it returns the state unchanged and logs the
    size-mismatch warning; the two warnings differ. *)
Theorem preflight_no_mutation inp opts st :
  let p := pressures inp in let o := tObs inp in let b := tBkg inp in
  let f := tFlags st in let c := tObsCorrection inp in
  ((length p = 0 \/ length o = 0 \/ length b = 0 \/ length f = 0 \/ length c = 0)%nat ->
   runCheck inp opts st = (st, [warn_empty]))
  /\ ((length p <> 0 /\ length o <> 0 /\ length b <> 0 /\ length f <> 0 /\ length c <> 0)%nat ->
      (length o <> length p \/ length b <> length p \/ length f <> length p
       \/ length c <> length p)%nat ->
      runCheck inp opts st = (st, [warn_size]))
  /\ warn_empty <> warn_size.
Proof.
  intros p o b f c. split; [|split].
  - intros H. unfold runCheck. fold p o b f c.
    replace (anyVectorEmpty p o b f c) with true; [reflexivity|].
    symmetry. unfold anyVectorEmpty. rewrite !orb_true_iff, !Nat.eqb_eq. tauto.
  - intros H1 H2. unfold runCheck. fold p o b f c.
    replace (anyVectorEmpty p o b f c) with false.
    + replace (allVectorsSameSize p o b f c) with false; [reflexivity|].
      symmetry. unfold allVectorsSameSize. rewrite !andb_false_iff, !Nat.eqb_neq. tauto.
    + symmetry. unfold anyVectorEmpty. rewrite !orb_false_iff, !Nat.eqb_neq. tauto.
  - unfold warn_empty, warn_size. discriminate.
Qed.

Lemma step_NumInterpErrObs env st n j :
  NumInterpErrObs (fst (step env (st, n) j)) = NumInterpErrObs st.
Proof. rewrite step_outcome; destruct (level_outcome env (tFlags st) j); reflexivity. Qed.

Lemma interp_loop_NumInterpErrObs env js : forall st n,
  NumInterpErrObs (fst (interp_loop env js (st, n))) = NumInterpErrObs st.
Proof.
  induction js as [|j js IH]; intros st n; [reflexivity|].
  rewrite interp_loop_cons. destruct (step env (st, n) j) as [st1 n1] eqn:E.
  rewrite IH. replace st1 with (fst (step env (st, n) j)) by (rewrite E; reflexivity).
  apply step_NumInterpErrObs.
Qed.

Lemma interp_loop_tally_ge env js : forall st n, snd (interp_loop env js (st, n)) >= n.
Proof.
  induction js as [|j js IH]; intros st n; [simpl; lia|].
  rewrite interp_loop_cons, step_outcome. destruct (level_outcome env (tFlags st) j); simpl;
    [apply IH | apply IH | specialize (IH (fail_state env j st) (n + 1)); lia].
Qed.

Lemma interp_loop_tally_pos env js : forall st n,
  (exists j, In j js /\ fails env (tFlags st) j = true) -> snd (interp_loop env js (st, n)) > n.
Proof.
  induction js as [|j js IH]; intros st n [k [Hk Hf]]; [destruct Hk|].
  rewrite interp_loop_cons. destruct (fails env (tFlags st) j) eqn:Fj.
  - rewrite step_fail by exact Fj. pose proof (interp_loop_tally_ge env js (fail_state env j st) (n + 1)). lia.
  - destruct (step_not_fail env st n j Fj) as [Hfl Hn].
    destruct (step env (st, n) j) as [st1 n1]. simpl in Hfl, Hn. subst n1.
    apply IH. exists k. destruct Hk as [<-|Hk]; [congruence|]. rewrite Hfl; auto.
Qed.

Lemma interp_loop_tally_zero env js : forall st n,
  (forall j, In j js -> fails env (tFlags st) j = false) -> snd (interp_loop env js (st, n)) = n.
Proof.
  induction js as [|j js IH]; intros st n H; [reflexivity|].
  rewrite interp_loop_cons.
  destruct (step_not_fail env st n j (H j (or_introl eq_refl))) as [Hfl Hn].
  destruct (step env (st, n) j) as [st1 n1]. simpl in Hfl, Hn. subst n1.
  apply IH. intros k Hk. rewrite Hfl. apply H; right; exact Hk.
Qed.

(** C8. When the check runs, [NumInterpErrObs] grows by exactly one if some
    standard level fails the tolerance test and is unchanged if none does,
    however many levels fail. *)
Theorem NumInterpErrObs_once_per_profile inp opts st c r :
  valid_inputs inp (tFlags st) = true -> NumInterpErrObs st = c :: r ->
  let env := make_env inp opts (tFlags st) in
  let st' := fst (runCheck inp opts st) in
  ((exists j, (j < Z.to_nat (NumStd_ (e_cls env)))%nat /\ fails env (tFlags st) j = true) ->
   NumInterpErrObs st' = (c + 1) :: r)
  /\ ((forall j, (j < Z.to_nat (NumStd_ (e_cls env)))%nat -> fails env (tFlags st) j = false) ->
      NumInterpErrObs st' = c :: r).
Proof.
  intros Hv Hc env st'. unfold st'. rewrite runCheck_valid by exact Hv. fold env. simpl.
  rewrite run_levels_eq.
  pose proof (interp_loop_NumInterpErrObs env (std_positions env) (init_results (numLevelsToCheck inp) st) 0) as HO.
  destruct (interp_loop env (std_positions env) (init_results (numLevelsToCheck inp) st, 0)) as [st1 n1] eqn:E.
  simpl in HO |- *. rewrite HO, Hc. split.
  - intros [j [Hj Hf]].
    assert (n1 > 0).
    { replace n1 with (snd (interp_loop env (std_positions env) (init_results (numLevelsToCheck inp) st, 0)))
        by (rewrite E; reflexivity).
      apply interp_loop_tally_pos. exists j; split; [apply in_std_positions; exact Hj | exact Hf]. }
    replace (n1 >? 0) with true by (symmetry; apply Z.gtb_lt; lia). reflexivity.
  - intros Hn.
    assert (n1 = 0).
    { replace n1 with (snd (interp_loop env (std_positions env) (init_results (numLevelsToCheck inp) st, 0)))
        by (rewrite E; reflexivity).
      apply interp_loop_tally_zero. intros j Hj; apply Hn. apply (in_std_positions env); exact Hj. }
    subst n1. reflexivity.
Qed.

Lemma existsb_triple k l : existsb (Z.eqb (Z.of_nat k)) l = true <-> In (Z.of_nat k) l.
Proof.
  rewrite existsb_exists. split.
  - intros [x [Hx He]]. apply Z.eqb_eq in He. subst; exact Hx.
  - intros H. exists (Z.of_nat k); split; [exact H | apply Z.eqb_refl].
Qed.

(** The flags during the loop differ from the input flags [F0] only by the
    interpolation bit, at indices of triples of levels failing at [F0]. *)
Lemma interp_loop_flags_shape env (F0 : list Z) js : forall l st n,
  (forall j, In j l -> In j js) ->
  length (tFlags st) = length F0 ->
  (forall k, (k < length F0)%nat ->
     nth k (tFlags st) 0 = nth k F0 0
     \/ (nth k (tFlags st) 0 = Z.lor (nth k F0 0) InterpolationFlag
         /\ exists j, In j js /\ fails env F0 j = true /\ In (Z.of_nat k) (triple env j))) ->
  let G := tFlags (fst (interp_loop env l (st, n))) in
  length G = length F0
  /\ forall k, (k < length F0)%nat ->
     nth k G 0 = nth k F0 0
     \/ (nth k G 0 = Z.lor (nth k F0 0) InterpolationFlag
         /\ exists j, In j js /\ fails env F0 j = true /\ In (Z.of_nat k) (triple env j)).
Proof.
  induction l as [|j l IH]; intros st n Hl Hlen Hk G; [split; assumption|].
  unfold G; rewrite interp_loop_cons.
  destruct (fails env (tFlags st) j) eqn:Fj.
  - rewrite step_fail by exact Fj. apply IH.
    + intros; apply Hl; right; assumption.
    + rewrite fail_state_flags, !upd_length; exact Hlen.
    + assert (Hs : lsub F0 (tFlags st)).
      { split; [symmetry; exact Hlen|]. intros k Hk'. destruct (Hk k Hk') as [->|[-> _]];
          [apply bsub_refl | apply bsub_orFlag]. }
      assert (F0j : fails env F0 j = true) by (eapply fails_mono; eassumption).
      intros k Hk'. rewrite fail_state_flags, nth_upd3_or by lia.
      destruct (existsb _ _) eqn:Ex.
      * right. apply existsb_triple in Ex. destruct (Hk k Hk') as [->|[-> _]].
        -- split; [reflexivity|]. exists j; repeat split; [apply Hl; left; reflexivity | exact F0j | exact Ex].
        -- split; [apply orFlag_idem|]. exists j; repeat split; [apply Hl; left; reflexivity | exact F0j | exact Ex].
      * apply Hk; exact Hk'.
  - destruct (step_not_fail env st n j Fj) as [Hfl _].
    destruct (step env (st, n) j) as [st1 n1]. simpl in Hfl. apply IH.
    + intros; apply Hl; right; assumption.
    + rewrite Hfl; exact Hlen.
    + rewrite Hfl; exact Hk.
Qed.

(** C10. [runCheck] never clears a flag bit: its output flags have the input
    length, and at each index they are either the input word unchanged or the
    input word with the interpolation bit added, the latter only when the
    check ran and the index is the level or a bracket of a standard level
    that fails the test. *)
Theorem runCheck_flags_only_gain_interp_bit inp opts st :
  let env := make_env inp opts (tFlags st) in
  let st' := fst (runCheck inp opts st) in
  lsub (tFlags st) (tFlags st')
  /\ forall k, (k < length (tFlags st))%nat ->
     nth k (tFlags st') 0 = nth k (tFlags st) 0
     \/ (nth k (tFlags st') 0 = Z.lor (nth k (tFlags st) 0) InterpolationFlag
         /\ valid_inputs inp (tFlags st) = true
         /\ exists j, (j < Z.to_nat (NumStd_ (e_cls env)))%nat /\ fails env (tFlags st) j = true
                      /\ In (Z.of_nat k) (triple env j)).
Proof.
  intros env st'. destruct (valid_inputs inp (tFlags st)) eqn:Hv.
  - unfold st'. rewrite runCheck_valid by exact Hv. fold env. simpl. rewrite run_levels_eq.
    pose proof (interp_loop_flags_shape env (tFlags st) (std_positions env) (std_positions env)
                  (init_results (numLevelsToCheck inp) st) 0) as Sh.
    destruct (interp_loop env (std_positions env) (init_results (numLevelsToCheck inp) st, 0))
      as [st1 n1] eqn:E.
    simpl in Sh |- *. destruct Sh as [Hlen Hk]; [auto | reflexivity | intros; left; reflexivity |].
    split.
    + split; [symmetry; exact Hlen|]. intros k Hk'. destruct (Hk k Hk') as [->|[-> _]];
        [apply bsub_refl | apply bsub_orFlag].
    + intros k Hk'. destruct (Hk k Hk') as [H|[H1 [j [Hj H2]]]]; [left; exact H | right].
      split; [exact H1|]. split; [reflexivity|]. exists j; split; [apply (in_std_positions env); exact Hj | exact H2].
  - unfold st', runCheck. unfold valid_inputs in Hv.
    destruct (anyVectorEmpty _ _ _ _ _); [simpl; split; [apply lsub_refl | intros; left; reflexivity]|].
    destruct (allVectorsSameSize _ _ _ _ _); [discriminate|].
    simpl; split; [apply lsub_refl | intros; left; reflexivity].
Qed.

(** ** Order of the level loop *)

Lemma disjoint_if_evaluated_sym env f j k :
  disjoint_if_evaluated env f j k -> disjoint_if_evaluated env f k j.
Proof. unfold disjoint_if_evaluated; intros H Hk Hj x Hx Hx'. exact (H Hj Hk x Hx' Hx). Qed.

Lemma ForallOrdPairs_perm {A} (R : A -> A -> Prop) (l l' : list A) :
  (forall x y, R x y -> R y x) -> Permutation l l' -> ForallOrdPairs R l -> ForallOrdPairs R l'.
Proof.
  intros Hsym HP; induction HP; intros H.
  - exact H.
  - inversion H as [|a b Hx Hl]; subst. constructor; [|apply IHHP; exact Hl].
    apply Forall_forall; intros z Hz. rewrite Forall_forall in Hx. apply Hx.
    apply Permutation_in with l'; [apply Permutation_sym; exact HP | exact Hz].
  - inversion H as [|a b Hy Hl]; subst. inversion Hl as [|a b Hx Hl']; subst.
    inversion Hy as [|a b Hyx Hyl]; subst.
    constructor; [constructor; [apply Hsym; exact Hyx | exact Hx]|constructor; [exact Hyl | exact Hl']].
  - apply IHHP2, IHHP1, H.
Qed.

Lemma level_outcome_skip_iff env f j : level_outcome env f j = OSkip <-> skipped env f j = true.
Proof.
  unfold level_outcome. destruct (skipped env f j); [tauto|].
  destruct (tol_exceeded env j); split; discriminate.
Qed.

Lemma get_fail_state_other env j st x :
  ~ In x (triple env j) -> get (tFlags (fail_state env j st)) x 0 = get (tFlags st) x 0.
Proof.
  intros H. unfold triple in H. simpl in H.
  rewrite fail_state_flags, !get_upd_other; [reflexivity | ..]; intros E; subst; tauto.
Qed.

(** After the step of [x], the decision of a level [k] whose triple is
    disjoint from that of [x] (when both are evaluated at [F0]) is unchanged. *)
Lemma outcome_transfer env F0 st n x k :
  disjoint_if_evaluated env F0 x k ->
  level_outcome env (tFlags st) x = level_outcome env F0 x ->
  level_outcome env (tFlags st) k = level_outcome env F0 k ->
  level_outcome env (tFlags (fst (step env (st, n) x))) k = level_outcome env F0 k.
Proof.
  intros Hd Hx Hk. rewrite step_outcome.
  destruct (level_outcome env (tFlags st) x) eqn:Ox; [exact Hk | exact Hk|].
  change (fst (apply_outcome env OFail x (st, n))) with (fail_state env x st).
  destruct (level_outcome env F0 k) eqn:Ok.
  - apply level_outcome_skip_iff. apply level_outcome_skip_iff in Hk.
    eapply skipped_mono; [apply lsub_fail_state | exact Hk].
  - rewrite <- Hk. apply level_outcome_surf.
    assert (NI : ~ In (jlev_of env k) (triple env x)).
    { intros Hin. revert Hin. apply (disjoint_if_evaluated_sym _ _ _ _ Hd);
        [ destruct (skipped env F0 k) eqn:S; [apply level_outcome_skip_iff in S; congruence | reflexivity]
        | destruct (skipped env F0 x) eqn:S; [apply level_outcome_skip_iff in S; congruence | reflexivity]
        | unfold triple; left; reflexivity ]. }
    rewrite get_fail_state_other by exact NI. reflexivity.
  - rewrite <- Hk. apply level_outcome_surf.
    assert (NI : ~ In (jlev_of env k) (triple env x)).
    { intros Hin. revert Hin. apply (disjoint_if_evaluated_sym _ _ _ _ Hd);
        [ destruct (skipped env F0 k) eqn:S; [apply level_outcome_skip_iff in S; congruence | reflexivity]
        | destruct (skipped env F0 x) eqn:S; [apply level_outcome_skip_iff in S; congruence | reflexivity]
        | unfold triple; left; reflexivity ]. }
    rewrite get_fail_state_other by exact NI. reflexivity.
Qed.

Lemma upd_same_comm (l : list Z) i k f : upd (upd l i f) k f = upd (upd l k f) i f.
Proof. apply upd_comm; right; reflexivity. Qed.

Lemma upd3_comm (l : list Z) a b c d e g f :
  upd (upd (upd (upd (upd (upd l a f) b f) c f) d f) e f) g f
  = upd (upd (upd (upd (upd (upd l d f) e f) g f) a f) b f) c f.
Proof.
  apply nth_ext with (d := 0) (d' := 0); [rewrite !upd_length; reflexivity|].
  intros m Hm. rewrite !upd_length in Hm. rewrite !nth_upd by (rewrite ?upd_length; exact Hm).
  destruct (Z.of_nat m =? a), (Z.of_nat m =? b), (Z.of_nat m =? c),
           (Z.of_nat m =? d), (Z.of_nat m =? e), (Z.of_nat m =? g); reflexivity.
Qed.

Lemma apply_outcome_comm env ox oy x y acc :
  (ox <> OSkip -> oy <> OSkip -> jlev_of env x <> jlev_of env y) ->
  apply_outcome env oy y (apply_outcome env ox x acc) = apply_outcome env ox x (apply_outcome env oy y acc).
Proof.
  destruct acc as [st n]; intros H.
  destruct ox, oy; simpl; try reflexivity;
  (assert (Hne : jlev_of env x <> jlev_of env y) by (apply H; discriminate));
  unfold pass_state, fail_state; simpl;
  (apply (f_equal2 pair); [f_equal | lia]);
  solve [ reflexivity | apply upd_comm; left; exact Hne | apply upd3_comm ].
Qed.

Lemma step_comm env F0 st n x y :
  disjoint_if_evaluated env F0 x y ->
  level_outcome env (tFlags st) x = level_outcome env F0 x ->
  level_outcome env (tFlags st) y = level_outcome env F0 y ->
  step env (step env (st, n) x) y = step env (step env (st, n) y) x.
Proof.
  intros Hd Hx Hy.
  pose proof (outcome_transfer env F0 st n x y Hd Hx Hy) as Ty.
  pose proof (outcome_transfer env F0 st n y x (disjoint_if_evaluated_sym _ _ _ _ Hd) Hy Hx) as Tx.
  destruct (step env (st, n) x) as [s1 m1] eqn:E1.
  destruct (step env (st, n) y) as [s2 m2] eqn:E2.
  simpl in Ty, Tx. rewrite (step_outcome env s1), (step_outcome env s2), Ty, Tx.
  rewrite step_outcome in E1, E2. rewrite <- E1, <- E2, Hx, Hy.
  apply apply_outcome_comm. intros Nx Ny Heq. apply Hd with (x := jlev_of env x).
  - destruct (skipped env F0 x) eqn:S; [apply level_outcome_skip_iff in S; congruence | reflexivity].
  - destruct (skipped env F0 y) eqn:S; [apply level_outcome_skip_iff in S; congruence | reflexivity].
  - unfold triple; left; reflexivity.
  - rewrite Heq; unfold triple; left; reflexivity.
Qed.

Lemma interp_loop_perm env F0 l l' :
  Permutation l l' -> forall st n,
  ForallOrdPairs (disjoint_if_evaluated env F0) l ->
  (forall k, In k l -> level_outcome env (tFlags st) k = level_outcome env F0 k) ->
  interp_loop env l (st, n) = interp_loop env l' (st, n).
Proof.
  induction 1 as [|x l l' HP IH|x y l|l l' l'' HP1 IH1 HP2 IH2]; intros st n Hd Hi.
  - reflexivity.
  - rewrite !interp_loop_cons. inversion Hd as [|a b Hx Hl]; subst.
    pose proof (fun k Hk => outcome_transfer env F0 st n x k
                  (proj1 (Forall_forall _ _) Hx k Hk) (Hi x (or_introl eq_refl)) (Hi k (or_intror Hk))) as T.
    destruct (step env (st, n) x) as [s1 m1]. apply IH; [exact Hl | exact T].
  - rewrite !interp_loop_cons. inversion Hd as [|a b Hy Hl]; subst.
    inversion Hy as [|a b Hyx _]; subst.
    rewrite (step_comm env F0 st n y x Hyx); [reflexivity | |]; apply Hi; simpl; auto.
  - rewrite (IH1 st n Hd Hi). apply IH2.
    + eapply ForallOrdPairs_perm; [apply disjoint_if_evaluated_sym | exact HP1 | exact Hd].
    + intros k Hk. apply Hi. apply Permutation_in with l'; [apply Permutation_sym; exact HP1 | exact Hk].
Qed.

(** ** Running the check twice *)

Lemma orFlag_absorb a b : bsub (orFlag a) b -> orFlag b = b.
Proof.
  unfold bsub, orFlag; intros H. apply Z.bits_inj'; intros m _.
  apply (f_equal (fun z => Z.testbit z m)) in H. simpl in H. repeat rewrite Z.lor_spec in H.
  rewrite Z.lor_spec.
  destruct (Z.testbit a m), (Z.testbit InterpolationFlag m), (Z.testbit b m); simpl in *; congruence.
Qed.

Lemma fail_state_absorbs env j st (G : list Z) x :
  lsub (tFlags (fail_state env j st)) G -> In x (triple env j) -> upd G x orFlag = G.
Proof.
  intros [Hlen Hs] Hx. apply upd_id with (d := 0). intros m Hm Hmx.
  assert (Hm' : (m < length (tFlags (fail_state env j st)))%nat) by lia.
  pose proof (Hs m Hm') as B. rewrite fail_state_flags in B.
  rewrite fail_state_flags, !upd_length in Hm'. rewrite nth_upd3_or in B by exact Hm'.
  replace (existsb _ _) with true in B by (symmetry; apply existsb_triple; subst x; exact Hx).
  apply (orFlag_absorb _ _ B).
Qed.

(** At the end of a loop, every level of the loop that fails at the final
    flags already has the interpolation bit at all of its triple. *)
Lemma interp_loop_absorbs env l : forall st n k,
  In k l -> fails env (tFlags (fst (interp_loop env l (st, n)))) k = true ->
  forall x, In x (triple env k) ->
  upd (tFlags (fst (interp_loop env l (st, n)))) x orFlag = tFlags (fst (interp_loop env l (st, n))).
Proof.
  induction l as [|j l IH]; intros st n k Hk Hf x Hx; [destruct Hk|].
  pose proof (interp_loop_lsub env (j :: l) st n) as Hs.
  rewrite interp_loop_cons in Hs, Hf |- *. destruct Hk as [<-|Hk].
  - assert (Fj : fails env (tFlags st) j = true) by (eapply fails_mono; eassumption).
    rewrite step_fail in Hs, Hf |- * by exact Fj.
    eapply fail_state_absorbs; [apply interp_loop_lsub | exact Hx].
  - destruct (step env (st, n) j) as [s1 m1]. eapply IH; eassumption.
Qed.

Lemma interp_loop_fixed env l (G : list Z) : forall st n,
  tFlags st = G ->
  (forall k, In k l -> fails env G k = true -> forall x, In x (triple env k) -> upd G x orFlag = G) ->
  tFlags (fst (interp_loop env l (st, n))) = G.
Proof.
  induction l as [|j l IH]; intros st n Hst H; [exact Hst|].
  rewrite interp_loop_cons. destruct (fails env G j) eqn:Fj.
  - rewrite step_fail by (rewrite Hst; exact Fj).
    apply IH; [|intros k Hk Hf x Hx; exact (H k (or_intror Hk) Hf x Hx)].
    rewrite fail_state_flags, Hst.
    rewrite (H j (or_introl eq_refl) Fj (jlev_of env j)) by (unfold triple; simpl; auto).
    rewrite (H j (or_introl eq_refl) Fj (sigB_of env j)) by (unfold triple; simpl; auto).
    apply (H j (or_introl eq_refl) Fj (sigA_of env j)); unfold triple; simpl; auto.
  - rewrite <- Hst in Fj. destruct (step_not_fail env st n j Fj) as [Hfl _].
    destruct (step env (st, n) j) as [s1 m1]. simpl in Hfl. apply IH; [congruence|].
    intros k Hk Hf x Hx; exact (H k (or_intror Hk) Hf x Hx).
Qed.

Lemma valid_inputs_length inp (f g : list Z) :
  length f = length g -> valid_inputs inp f = valid_inputs inp g.
Proof. intros H; unfold valid_inputs, anyVectorEmpty, allVectorsSameSize; rewrite H; reflexivity. Qed.

Lemma runCheck_invalid inp opts st :
  valid_inputs inp (tFlags st) = false -> fst (runCheck inp opts st) = st.
Proof.
  unfold valid_inputs, runCheck; intros H.
  destruct (anyVectorEmpty _ _ _ _ _); [reflexivity|].
  destruct (allVectorsSameSize _ _ _ _ _); [discriminate | reflexivity].
Qed.

Lemma runCheck_tFlags inp opts st :
  valid_inputs inp (tFlags st) = true ->
  let env := make_env inp opts (tFlags st) in
  tFlags (fst (runCheck inp opts st))
  = tFlags (fst (interp_loop env (std_positions env) (init_results (numLevelsToCheck inp) st, 0))).
Proof.
  intros Hv env. rewrite runCheck_valid by exact Hv. fold env. simpl. rewrite run_levels_eq.
  destruct (interp_loop _ _ _) as [s1 m1]; reflexivity.
Qed.

(** C9. When the triples of the evaluated standard levels are pairwise
    disjoint, processing the standard levels in any order gives the same
    final state (flags, counters, [LevErrors], [tInterp]) as the loop of
    [runCheck]. Re-running the check on its own result, with the
    classification unchanged by the new flags, adds no flag bit. *)
Theorem check_order_independent_idempotent :
  (forall inp opts st js,
     valid_inputs inp (tFlags st) = true ->
     let env := make_env inp opts (tFlags st) in
     Permutation (std_positions env) js ->
     ForallOrdPairs (disjoint_if_evaluated env (tFlags st)) (std_positions env) ->
     run_levels env js (init_results (numLevelsToCheck inp) st) = fst (runCheck inp opts st))
  /\
  (forall inp opts st,
     let st1 := fst (runCheck inp opts st) in
     let tObsFinal := correctVector (tObs inp) (tObsCorrection inp) in
     calcStdLevels (numLevelsToCheck inp) (pressures inp) tObsFinal (tFlags st1)
     = calcStdLevels (numLevelsToCheck inp) (pressures inp) tObsFinal (tFlags st) ->
     tFlags (fst (runCheck inp opts st1)) = tFlags st1).
Proof.
  split.
  - intros inp opts st js Hv env HP Hd. rewrite runCheck_valid by exact Hv. fold env. simpl.
    unfold run_levels.
    rewrite (interp_loop_perm env (tFlags st) (std_positions env) js HP
               (init_results (numLevelsToCheck inp) st) 0 Hd (fun _ _ => eq_refl)).
    reflexivity.
  - intros inp opts st st1 tObsFinal Hcls.
    destruct (valid_inputs inp (tFlags st)) eqn:Hv.
    + set (env := make_env inp opts (tFlags st)).
      assert (E1 : tFlags st1 = tFlags (fst (interp_loop env (std_positions env)
                                     (init_results (numLevelsToCheck inp) st, 0))))
        by (apply runCheck_tFlags; exact Hv).
      assert (Hlen : length (tFlags st1) = length (tFlags st)).
      { rewrite E1. symmetry. apply (interp_loop_lsub env (std_positions env) (init_results (numLevelsToCheck inp) st) 0). }
      assert (Hv1 : valid_inputs inp (tFlags st1) = true) by (rewrite (valid_inputs_length _ _ _ Hlen); exact Hv).
      rewrite (runCheck_tFlags inp opts st1 Hv1).
      assert (Henv : make_env inp opts (tFlags st1) = env).
      { unfold env, make_env. fold tObsFinal. rewrite Hcls. reflexivity. }
      rewrite Henv. apply interp_loop_fixed; [reflexivity|].
      intros k Hk Hf x Hx. rewrite E1 in Hf |- *. eapply interp_loop_absorbs; eassumption.
    + unfold st1. rewrite (runCheck_invalid inp opts st Hv).
      apply f_equal, runCheck_invalid, Hv.
Qed.

(** ** Further properties of the whole check *)

Lemma apply_outcome_lengths env o j acc :
  length (tFlags (fst (apply_outcome env o j acc))) = length (tFlags (fst acc))
  /\ length (LevErrors_ (fst (apply_outcome env o j acc))) = length (LevErrors_ (fst acc))
  /\ length (tInterp_ (fst (apply_outcome env o j acc))) = length (tInterp_ (fst acc)).
Proof.
  destruct acc as [st n]; destruct o; simpl; rewrite ?upd_length; auto.
Qed.

Lemma interp_loop_lengths env js : forall st n,
  let st' := fst (interp_loop env js (st, n)) in
  length (tFlags st') = length (tFlags st)
  /\ length (LevErrors_ st') = length (LevErrors_ st)
  /\ length (tInterp_ st') = length (tInterp_ st).
Proof.
  induction js as [|j js IH]; intros st n; [simpl; auto|].
  rewrite interp_loop_cons, step_outcome.
  destruct (apply_outcome env (level_outcome env (tFlags st) j) j (st, n)) as [st1 n1] eqn:E.
  pose proof (apply_outcome_lengths env (level_outcome env (tFlags st) j) j (st, n)) as L.
  rewrite E in L; simpl in L. destruct L as (L1 & L2 & L3).
  destruct (IH st1 n1) as (I1 & I2 & I3). cbv zeta in *.
  rewrite I1, I2, I3. auto.
Qed.

Lemma run_levels_fields env js st :
  let p := interp_loop env js (st, 0) in
  tFlags (run_levels env js st) = tFlags (fst p)
  /\ NumAnyErrors (run_levels env js st) = NumAnyErrors (fst p)
  /\ NumInterpErrors (run_levels env js st) = NumInterpErrors (fst p)
  /\ NumInterpErrObs (run_levels env js st)
     = (if snd p >? 0 then incr0 (NumInterpErrObs (fst p)) else NumInterpErrObs (fst p))
  /\ LevErrors_ (run_levels env js st) = LevErrors_ (fst p)
  /\ tInterp_ (run_levels env js st) = tInterp_ (fst p).
Proof.
  rewrite run_levels_eq. cbv zeta. destruct (interp_loop env js (st, 0)) as [st1 n1]. simpl.
  repeat split.
Qed.

Lemma interp_loop_counters env js : forall st n a r b r',
  NumAnyErrors st = a :: r -> NumInterpErrors st = b :: r' ->
  let p := interp_loop env js (st, n) in
  NumAnyErrors (fst p) = (a + (snd p - n)) :: r
  /\ NumInterpErrors (fst p) = (b + (snd p - n)) :: r'.
Proof.
  induction js as [|j js IH]; intros st n a r b r' HA HB; cbv zeta.
  - simpl. rewrite HA, HB. split; f_equal; lia.
  - rewrite interp_loop_cons, step_outcome.
    destruct (level_outcome env (tFlags st) j); simpl apply_outcome.
    + exact (IH st n a r b r' HA HB).
    + exact (IH (pass_state env j st) n a r b r' HA HB).
    + assert (HA' : NumAnyErrors (fail_state env j st) = (a + 1) :: r)
        by (simpl; rewrite HA; apply incr0_cons).
      assert (HB' : NumInterpErrors (fail_state env j st) = (b + 1) :: r')
        by (simpl; rewrite HB; apply incr0_cons).
      destruct (IH (fail_state env j st) (n + 1) _ _ _ _ HA' HB') as [I1 I2].
      cbv zeta in I1, I2. rewrite I1, I2. split; f_equal; lia.
Qed.

Lemma surf_orFlag x :
  Z.land InterpolationFlag SurfaceLevelFlag = 0 -> surf (orFlag x) = surf x.
Proof.
  intros Hd. unfold surf, orFlag. rewrite Z.land_lor_distr_l, Hd, Z.lor_0_r. reflexivity.
Qed.

Lemma same_surf_upd_or f g i :
  Z.land InterpolationFlag SurfaceLevelFlag = 0 -> same_surf f g -> same_surf f (upd g i orFlag).
Proof.
  intros Hd Hs x. rewrite get_upd.
  destruct ((x =? i) && (0 <=? x) && (Z.to_nat x <? length g)%nat); [rewrite surf_orFlag by exact Hd|]; apply Hs.
Qed.

Lemma same_surf_step env F0 st n j :
  Z.land InterpolationFlag SurfaceLevelFlag = 0 -> same_surf F0 (tFlags st) ->
  same_surf F0 (tFlags (fst (step env (st, n) j))).
Proof.
  intros Hd Hs. rewrite step_outcome.
  destruct (level_outcome env (tFlags st) j); simpl; try exact Hs.
  repeat apply same_surf_upd_or; assumption.
Qed.

Lemma same_surf_outcome env F0 f j : same_surf F0 f -> level_outcome env f j = level_outcome env F0 j.
Proof.
  intros Hs. apply level_outcome_surf. symmetry. apply Hs.
Qed.

Lemma fixed_loop_cons env F0 j js acc :
  fixed_loop env F0 (j :: js) acc = fixed_loop env F0 js (apply_outcome env (level_outcome env F0 j) j acc).
Proof. reflexivity. Qed.

Lemma fixed_loop_app env F0 l1 l2 acc :
  fixed_loop env F0 (l1 ++ l2) acc = fixed_loop env F0 l2 (fixed_loop env F0 l1 acc).
Proof. unfold fixed_loop. apply fold_left_app. Qed.

(** When the interpolation bit cannot raise the surface bit, the loop takes
    every decision at the flags it started from. *)
Lemma interp_loop_fixed_eq env F0 js :
  Z.land InterpolationFlag SurfaceLevelFlag = 0 ->
  forall st n, same_surf F0 (tFlags st) -> interp_loop env js (st, n) = fixed_loop env F0 js (st, n).
Proof.
  intros Hd. induction js as [|j js IH]; intros st n Hs; [reflexivity|].
  rewrite interp_loop_cons, fixed_loop_cons.
  pose proof (same_surf_step env F0 st n j Hd Hs) as Hs1.
  rewrite <- (same_surf_outcome env F0 (tFlags st) j Hs), <- step_outcome.
  destruct (step env (st, n) j) as [st1 n1]. apply IH. exact Hs1.
Qed.

Lemma fixed_loop_lengths env F0 js : forall acc,
  length (tFlags (fst (fixed_loop env F0 js acc))) = length (tFlags (fst acc))
  /\ length (LevErrors_ (fst (fixed_loop env F0 js acc))) = length (LevErrors_ (fst acc))
  /\ length (tInterp_ (fst (fixed_loop env F0 js acc))) = length (tInterp_ (fst acc)).
Proof.
  induction js as [|j js IH]; intros acc; [auto|].
  rewrite fixed_loop_cons.
  destruct (IH (apply_outcome env (level_outcome env F0 j) j acc)) as (I1 & I2 & I3).
  destruct (apply_outcome_lengths env (level_outcome env F0 j) j acc) as (L1 & L2 & L3).
  rewrite I1, I2, I3, L1, L2, L3. auto.
Qed.

Lemma fixed_loop_counters env F0 js : forall st n a r b r',
  NumAnyErrors st = a :: r -> NumInterpErrors st = b :: r' ->
  let p := fixed_loop env F0 js (st, n) in
  let m := Z.of_nat (num_fails env F0 js) in
  snd p = n + m /\ NumAnyErrors (fst p) = (a + m) :: r /\ NumInterpErrors (fst p) = (b + m) :: r'.
Proof.
  induction js as [|j js IH]; intros st n a r b r' HA HB; cbv zeta.
  - simpl. rewrite HA, HB. repeat split; f_equal; lia.
  - rewrite fixed_loop_cons. unfold num_fails. simpl filter.
    assert (Ef : fails env F0 j = match level_outcome env F0 j with OFail => true | _ => false end)
      by reflexivity.
    rewrite Ef. destruct (level_outcome env F0 j); simpl apply_outcome.
    + exact (IH st n a r b r' HA HB).
    + exact (IH (pass_state env j st) n a r b r' HA HB).
    + assert (HA' : NumAnyErrors (fail_state env j st) = (a + 1) :: r)
        by (simpl; rewrite HA; apply incr0_cons).
      assert (HB' : NumInterpErrors (fail_state env j st) = (b + 1) :: r')
        by (simpl; rewrite HB; apply incr0_cons).
      destruct (IH (fail_state env j st) (n + 1) _ _ _ _ HA' HB') as (I1 & I2 & I3).
      unfold num_fails in I1, I2, I3. rewrite I1, I2, I3. simpl length.
      split; [lia | split; f_equal; lia].
Qed.

Lemma lev_hits_cons env F0 j js k :
  lev_hits env F0 (j :: js) k
  = ((if fails env F0 j then count_occ Z.eq_dec (triple env j) (Z.of_nat k) else O) + lev_hits env F0 js k)%nat.
Proof. reflexivity. Qed.

Lemma fixed_loop_LevErrors env F0 js : forall st n k,
  (k < length (LevErrors_ st))%nat ->
  nth k (LevErrors_ (fst (fixed_loop env F0 js (st, n)))) 0
  = nth k (LevErrors_ st) 0 + Z.of_nat (lev_hits env F0 js k).
Proof.
  induction js as [|j js IH]; intros st n k Hk; [simpl; lia|].
  rewrite fixed_loop_cons, lev_hits_cons.
  assert (Ef : fails env F0 j = match level_outcome env F0 j with OFail => true | _ => false end)
    by reflexivity.
  rewrite Ef. destruct (level_outcome env F0 j); simpl apply_outcome.
  - rewrite IH by exact Hk. lia.
  - rewrite IH by exact Hk. simpl LevErrors_. lia.
  - rewrite IH by (simpl; rewrite !upd_length; exact Hk).
    simpl LevErrors_. rewrite nth_upd3_incr by exact Hk. unfold triple. lia.
Qed.

Lemma get_upd_set {A} (l : list A) x v d :
  0 <= x -> (Z.to_nat x < length l)%nat -> get (upd l x (fun _ => v)) x d = v.
Proof.
  intros H0 H1. rewrite get_upd, Z.eqb_refl.
  replace (0 <=? x) with true by (symmetry; apply Z.leb_le; exact H0).
  replace (Z.to_nat x <? length l)%nat with true by (symmetry; apply Nat.ltb_lt; exact H1).
  reflexivity.
Qed.

Lemma apply_outcome_tInterp_other env o j acc x d :
  jlev_of env j <> x ->
  get (tInterp_ (fst (apply_outcome env o j acc))) x d = get (tInterp_ (fst acc)) x d.
Proof.
  intros Hne. destruct acc as [st n]; destruct o; simpl; try reflexivity;
    apply get_upd_other; congruence.
Qed.

Lemma fixed_loop_tInterp_other env F0 js x d : forall acc,
  (forall j, In j js -> jlev_of env j <> x) ->
  get (tInterp_ (fst (fixed_loop env F0 js acc))) x d = get (tInterp_ (fst acc)) x d.
Proof.
  induction js as [|j js IH]; intros acc Hx; [reflexivity|].
  rewrite fixed_loop_cons, IH by (intros j' Hj'; apply Hx; right; exact Hj').
  apply apply_outcome_tInterp_other. apply Hx. left; reflexivity.
Qed.

Lemma interp_loop_tInterp_unevaluated env F0 js x d : forall st n,
  lsub F0 (tFlags st) ->
  (forall j, In j js -> jlev_of env j = x -> skipped env F0 j = true) ->
  get (tInterp_ (fst (interp_loop env js (st, n)))) x d = get (tInterp_ st) x d.
Proof.
  induction js as [|j js IH]; intros st n Hl Hx; [reflexivity|].
  rewrite interp_loop_cons.
  assert (Hl1 : lsub F0 (tFlags (fst (step env (st, n) j)))) by (eapply lsub_trans; [exact Hl | apply step_lsub]).
  assert (Ht : get (tInterp_ (fst (step env (st, n) j))) x d = get (tInterp_ st) x d).
  { rewrite step_outcome. destruct (Z.eq_dec (jlev_of env j) x) as [E|E].
    - rewrite skipped_outcome; [reflexivity|].
      apply (skipped_mono env F0); [exact Hl | apply Hx; [left; reflexivity | exact E]].
    - apply apply_outcome_tInterp_other. exact E. }
  destruct (step env (st, n) j) as [st1 n1] eqn:E1. simpl in Hl1, Ht.
  rewrite IH; [exact Ht | exact Hl1 | intros j' Hj'; apply Hx; right; exact Hj'].
Qed.

Lemma interp_loop_no_failure env js : forall st n,
  (forall j, In j js -> fails env (tFlags st) j = false) ->
  let p := interp_loop env js (st, n) in
  tFlags (fst p) = tFlags st /\ NumAnyErrors (fst p) = NumAnyErrors st
  /\ NumInterpErrors (fst p) = NumInterpErrors st /\ LevErrors_ (fst p) = LevErrors_ st
  /\ snd p = n.
Proof.
  induction js as [|j js IH]; intros st n Hf; cbv zeta; [simpl; auto|].
  rewrite interp_loop_cons, step_outcome.
  assert (Hj := Hf j (or_introl eq_refl)). unfold fails in Hj.
  destruct (level_outcome env (tFlags st) j); try discriminate Hj; simpl apply_outcome.
  - apply IH. intros j' Hj'. apply Hf. right; exact Hj'.
  - destruct (IH (pass_state env j st) n) as (I1 & I2 & I3 & I4 & I5).
    + intros j' Hj'. apply Hf. right; exact Hj'.
    + cbv zeta in *. rewrite I1, I2, I3, I4, I5. auto.
Qed.

Lemma count_occ_not_existsb (l : list Z) k :
  existsb (Z.eqb (Z.of_nat k)) l = false -> count_occ Z.eq_dec l (Z.of_nat k) = O.
Proof.
  intros He. apply count_occ_not_In. intros Hin. apply existsb_triple in Hin. congruence.
Qed.

Lemma bsub_interp_lor x : bsub InterpolationFlag (Z.lor x InterpolationFlag).
Proof.
  unfold bsub. rewrite Z.lor_comm, <- Z.lor_assoc, Z.lor_diag. reflexivity.
Qed.

Lemma step_lev_inv env st n j : lev_inv st -> lev_inv (fst (step env (st, n) j)).
Proof.
  intros [I1 I2]. rewrite step_outcome.
  destruct (level_outcome env (tFlags st) j); simpl apply_outcome; try (split; assumption).
  unfold fail_state; simpl fst. split; simpl LevErrors_; simpl tFlags; rewrite ?upd_length.
  - intros k Hk. rewrite nth_upd3_incr by exact Hk. specialize (I1 k Hk). lia.
  - intros k Hk Hk' Hne. rewrite nth_upd3_or by exact Hk'.
    rewrite nth_upd3_incr in Hne by exact Hk.
    destruct (existsb (Z.eqb (Z.of_nat k)) [jlev_of env j; sigB_of env j; sigA_of env j]) eqn:Ee.
    + apply bsub_interp_lor.
    + rewrite (count_occ_not_existsb _ _ Ee) in Hne. apply I2; [exact Hk | exact Hk' | lia].
Qed.

Lemma interp_loop_lev_inv env js : forall st n, lev_inv st -> lev_inv (fst (interp_loop env js (st, n))).
Proof.
  induction js as [|j js IH]; intros st n Hi; [exact Hi|].
  rewrite interp_loop_cons.
  pose proof (step_lev_inv env st n j Hi) as Hi1.
  destruct (step env (st, n) j) as [st1 n1]. apply IH. exact Hi1.
Qed.

Lemma get_repeat {A} (v : A) n x : get (repeat v n) x v = v.
Proof.
  unfold get. destruct (x <? 0); [reflexivity|].
  destruct (Nat.lt_ge_cases (Z.to_nat x) n) as [Hl|Hl].
  - apply nth_repeat_lt. exact Hl.
  - apply nth_overflow. rewrite repeat_length. exact Hl.
Qed.

Lemma std_positions_NoDup env : NoDup (std_positions env).
Proof. apply seq_NoDup. Qed.

Lemma runCheck_lengths inp opts st :
  valid_inputs inp (tFlags st) = true ->
  let st' := fst (runCheck inp opts st) in
  length (LevErrors_ st') = Z.to_nat (numLevelsToCheck inp)
  /\ length (tInterp_ st') = Z.to_nat (numLevelsToCheck inp)
  /\ length (tFlags st') = length (tFlags st).
Proof.
  intros Hv. cbv zeta. rewrite runCheck_valid by exact Hv. cbv zeta. simpl fst.
  set (env := make_env inp opts (tFlags st)).
  destruct (run_levels_fields env (std_positions env) (init_results (numLevelsToCheck inp) st))
    as (R1 & _ & _ & _ & R5 & R6).
  destruct (interp_loop_lengths env (std_positions env) (init_results (numLevelsToCheck inp) st) 0)
    as (L1 & L2 & L3).
  cbv zeta in *. rewrite R1, R5, R6, L1, L2, L3. simpl. rewrite !repeat_length. auto.
Qed.

(** X1: [runCheck] on valid data with [numLevelsToCheck >= 0] (a negative
    count makes [assign] fail) sizes [LevErrors_] and [tInterp_] to
    [numLevelsToCheck] and keeps the size of the flags. *)
Theorem runCheck_result_lengths inp opts st :
  0 <= numLevelsToCheck inp ->
  valid_inputs inp (tFlags st) = true ->
  let st' := fst (runCheck inp opts st) in
  length (LevErrors_ st') = Z.to_nat (numLevelsToCheck inp)
  /\ length (tInterp_ st') = Z.to_nat (numLevelsToCheck inp)
  /\ length (tFlags st') = length (tFlags st).
Proof. intros _. exact (runCheck_lengths inp opts st). Qed.

(** X2: On valid data the counters [NumAnyErrors[0]] and [NumInterpErrors[0]]
    grow by the same number m >= 0, and [NumInterpErrObs[0]] grows by one
    exactly when m > 0; the other entries of the counters stay. *)
Theorem runCheck_counters_move_together inp opts st a r b r' c r'' :
  valid_inputs inp (tFlags st) = true ->
  NumAnyErrors st = a :: r -> NumInterpErrors st = b :: r' -> NumInterpErrObs st = c :: r'' ->
  let st' := fst (runCheck inp opts st) in
  exists m, 0 <= m
    /\ NumAnyErrors st' = (a + m) :: r /\ NumInterpErrors st' = (b + m) :: r'
    /\ NumInterpErrObs st' = (if m >? 0 then c + 1 else c) :: r''.
Proof.
  intros Hv HA HB HC. cbv zeta. rewrite runCheck_valid by exact Hv. cbv zeta. simpl fst.
  set (env := make_env inp opts (tFlags st)).
  set (S0 := init_results (numLevelsToCheck inp) st).
  destruct (run_levels_fields env (std_positions env) S0) as (_ & R2 & R3 & R4 & _ & _).
  destruct (interp_loop_counters env (std_positions env) S0 0 a r b r' HA HB) as [C1 C2].
  pose proof (interp_loop_tally_ge env (std_positions env) S0 0) as Hg.
  pose proof (interp_loop_NumInterpErrObs env (std_positions env) S0 0) as HO.
  cbv zeta in *. exists (snd (interp_loop env (std_positions env) (S0, 0))).
  rewrite R2, R3, R4, C1, C2, HO. simpl NumInterpErrObs. rewrite HC.
  replace (snd (interp_loop env (std_positions env) (S0, 0)) - 0)
    with (snd (interp_loop env (std_positions env) (S0, 0))) by lia.
  destruct (snd (interp_loop env (std_positions env) (S0, 0)) >? 0); repeat split; try lia; try apply incr0_cons.
Qed.

(** X3: On valid data, when [InterpolationFlag] shares no bit with
    [SurfaceLevelFlag], [NumAnyErrors[0]] and [NumInterpErrors[0]] grow by
    the number of standard levels that fail at the input flags. *)
Theorem runCheck_error_count inp opts st a r b r' :
  valid_inputs inp (tFlags st) = true ->
  Z.land InterpolationFlag SurfaceLevelFlag = 0 ->
  NumAnyErrors st = a :: r -> NumInterpErrors st = b :: r' ->
  let env := make_env inp opts (tFlags st) in
  let m := Z.of_nat (num_fails env (tFlags st) (std_positions env)) in
  let st' := fst (runCheck inp opts st) in
  NumAnyErrors st' = (a + m) :: r /\ NumInterpErrors st' = (b + m) :: r'.
Proof.
  intros Hv Hd HA HB. cbv zeta. rewrite runCheck_valid by exact Hv. cbv zeta. simpl fst.
  set (env := make_env inp opts (tFlags st)).
  set (S0 := init_results (numLevelsToCheck inp) st).
  destruct (run_levels_fields env (std_positions env) S0) as (_ & R2 & R3 & _ & _ & _).
  rewrite (interp_loop_fixed_eq env (tFlags st) _ Hd S0 0) in R2, R3 by (intros x; reflexivity).
  destruct (fixed_loop_counters env (tFlags st) (std_positions env) S0 0 a r b r' HA HB)
    as (_ & C1 & C2).
  cbv zeta in *. rewrite R2, R3, C1, C2. split; reflexivity.
Qed.

(** X4: On valid data, when [InterpolationFlag] shares no bit with
    [SurfaceLevelFlag], [LevErrors_[k]] of a level [k < numLevelsToCheck] is
    -1 plus the number of times [k] is the standard level or a bracket of a
    failing standard level. *)
Theorem runCheck_LevErrors_count inp opts st k :
  valid_inputs inp (tFlags st) = true ->
  Z.land InterpolationFlag SurfaceLevelFlag = 0 ->
  (k < Z.to_nat (numLevelsToCheck inp))%nat ->
  let env := make_env inp opts (tFlags st) in
  nth k (LevErrors_ (fst (runCheck inp opts st))) 0
  = -1 + Z.of_nat (lev_hits env (tFlags st) (std_positions env) k).
Proof.
  intros Hv Hd Hk. cbv zeta. rewrite runCheck_valid by exact Hv. cbv zeta. simpl fst.
  set (env := make_env inp opts (tFlags st)).
  set (S0 := init_results (numLevelsToCheck inp) st).
  destruct (run_levels_fields env (std_positions env) S0) as (_ & _ & _ & _ & R5 & _).
  rewrite (interp_loop_fixed_eq env (tFlags st) _ Hd S0 0) in R5 by (intros x; reflexivity).
  cbv zeta in R5. rewrite R5, fixed_loop_LevErrors.
  - unfold S0, init_results; simpl LevErrors_. rewrite nth_repeat_lt by exact Hk. reflexivity.
  - unfold S0, init_results; simpl LevErrors_. rewrite repeat_length. exact Hk.
Qed.

(** X5: On valid data every entry of [LevErrors_] is at least -1, and a level
    with a recorded interpolation error carries [InterpolationFlag] after
    the check. *)
Theorem runCheck_LevErrors_flagged inp opts st k :
  valid_inputs inp (tFlags st) = true ->
  (k < Z.to_nat (numLevelsToCheck inp))%nat ->
  let st' := fst (runCheck inp opts st) in
  -1 <= nth k (LevErrors_ st') 0
  /\ ((k < length (tFlags st))%nat -> nth k (LevErrors_ st') 0 <> -1 ->
      bsub InterpolationFlag (nth k (tFlags st') 0)).
Proof.
  intros Hv Hk. cbv zeta. rewrite runCheck_valid by exact Hv. cbv zeta. simpl fst.
  set (env := make_env inp opts (tFlags st)).
  set (S0 := init_results (numLevelsToCheck inp) st).
  destruct (run_levels_fields env (std_positions env) S0) as (R1 & _ & _ & _ & R5 & _).
  destruct (interp_loop_lengths env (std_positions env) S0 0) as (L1 & L2 & _).
  assert (I0 : lev_inv S0).
  { unfold S0, init_results, lev_inv; simpl. split.
    - intros k' Hk'. rewrite repeat_length in Hk'. rewrite nth_repeat_lt by exact Hk'. lia.
    - intros k' Hk' _ Hne. rewrite repeat_length in Hk'. rewrite nth_repeat_lt in Hne by exact Hk'.
      congruence. }
  destruct (interp_loop_lev_inv env (std_positions env) S0 0 I0) as [I1 I2].
  cbv zeta in *. rewrite R1, R5.
  assert (HkL : (k < length (LevErrors_ (fst (interp_loop env (std_positions env) (S0, 0%Z)))))%nat)
    by (rewrite L2; unfold S0, init_results; simpl; rewrite repeat_length; exact Hk).
  split; [apply I1; exact HkL|].
  intros Hkf. apply I2; [exact HkL|]. rewrite L1. exact Hkf.
Qed.

(** X6: On valid data [tInterp_[x]] stays [missingValueFloat] at every level
    [x] that is not the standard level of a position the check evaluates. *)
Theorem runCheck_tInterp_unevaluated inp opts st x :
  valid_inputs inp (tFlags st) = true ->
  let env := make_env inp opts (tFlags st) in
  (forall j, (j < Z.to_nat (NumStd_ (e_cls env)))%nat ->
     nth j (StdLev_ (e_cls env)) 0 = x -> skipped env (tFlags st) j = true) ->
  get (tInterp_ (fst (runCheck inp opts st))) x missingValueFloat = missingValueFloat.
Proof.
  intros Hv. cbv zeta. intros Hx. rewrite runCheck_valid by exact Hv. cbv zeta. simpl fst.
  set (env := make_env inp opts (tFlags st)).
  set (S0 := init_results (numLevelsToCheck inp) st).
  destruct (run_levels_fields env (std_positions env) S0) as (_ & _ & _ & _ & _ & R6).
  cbv zeta in R6. rewrite R6.
  rewrite (interp_loop_tInterp_unevaluated env (tFlags st)).
  - unfold S0, init_results. simpl tInterp_. apply get_repeat.
  - apply lsub_refl.
  - intros j Hj Hjx. apply Hx; [apply (in_std_positions env); exact Hj | exact Hjx].
Qed.

(** X7: On valid data, when [InterpolationFlag] shares no bit with
    [SurfaceLevelFlag], a standard level [lev < numLevelsToCheck] of an
    evaluated position that no other position shares holds the interpolated
    value after the check. *)
Theorem runCheck_tInterp_evaluated inp opts st j :
  valid_inputs inp (tFlags st) = true ->
  Z.land InterpolationFlag SurfaceLevelFlag = 0 ->
  let env := make_env inp opts (tFlags st) in
  let lev := nth j (StdLev_ (e_cls env)) 0 in
  (j < Z.to_nat (NumStd_ (e_cls env)))%nat ->
  skipped env (tFlags st) j = false ->
  0 <= lev < numLevelsToCheck inp ->
  (forall j', (j' < Z.to_nat (NumStd_ (e_cls env)))%nat -> j' <> j ->
     nth j' (StdLev_ (e_cls env)) 0 <> lev) ->
  get (tInterp_ (fst (runCheck inp opts st))) lev missingValueFloat = interp_value env j.
Proof.
  intros Hv Hd. cbv zeta. intros Hj Hs Hl Hu. rewrite runCheck_valid by exact Hv. cbv zeta. simpl fst.
  set (env := make_env inp opts (tFlags st)) in *.
  set (S0 := init_results (numLevelsToCheck inp) st).
  destruct (run_levels_fields env (std_positions env) S0) as (_ & _ & _ & _ & _ & R6).
  rewrite (interp_loop_fixed_eq env (tFlags st) _ Hd S0 0) in R6 by (intros x; reflexivity).
  cbv zeta in R6. rewrite R6.
  assert (Hin : In j (std_positions env)) by (apply in_std_positions; exact Hj).
  destruct (in_split _ _ Hin) as (l1 & l2 & E).
  pose proof (std_positions_NoDup env) as Hnd. rewrite E in Hnd.
  apply NoDup_remove_2 in Hnd.
  rewrite E, fixed_loop_app, fixed_loop_cons, fixed_loop_tInterp_other.
  - destruct (fixed_loop_lengths env (tFlags st) l1 (S0, 0)) as (_ & _ & L3).
    destruct (fixed_loop env (tFlags st) l1 (S0, 0)) as [s1 n1]. simpl in L3.
    unfold level_outcome. rewrite Hs.
    assert (HL : (Z.to_nat (nth j (StdLev_ (e_cls env)) 0%Z) < length (tInterp_ s1))%nat).
    { rewrite L3, repeat_length. lia. }
    destruct (tol_exceeded env j); simpl apply_outcome; apply get_upd_set; [exact (proj1 Hl) | exact HL | exact (proj1 Hl) | exact HL].
  - intros j' Hj' Heq. apply (Hu j').
    + apply in_std_positions. rewrite E. apply in_or_app. right; right; exact Hj'.
    + intros <-. apply Hnd. apply in_or_app. right; exact Hj'.
    + exact Heq.
Qed.

(** X8: On valid data, when no standard level fails at the input flags, the
    check changes no flag and no counter and leaves [LevErrors_] at -1. *)
Theorem runCheck_no_failure_frame inp opts st :
  valid_inputs inp (tFlags st) = true ->
  let env := make_env inp opts (tFlags st) in
  (forall j, (j < Z.to_nat (NumStd_ (e_cls env)))%nat -> fails env (tFlags st) j = false) ->
  let st' := fst (runCheck inp opts st) in
  tFlags st' = tFlags st /\ NumAnyErrors st' = NumAnyErrors st
  /\ NumInterpErrors st' = NumInterpErrors st /\ NumInterpErrObs st' = NumInterpErrObs st
  /\ LevErrors_ st' = repeat (-1) (Z.to_nat (numLevelsToCheck inp)).
Proof.
  intros Hv. cbv zeta. intros Hf. rewrite runCheck_valid by exact Hv. cbv zeta. simpl fst.
  set (env := make_env inp opts (tFlags st)) in *.
  set (S0 := init_results (numLevelsToCheck inp) st).
  destruct (run_levels_fields env (std_positions env) S0) as (R1 & R2 & R3 & R4 & R5 & _).
  destruct (interp_loop_no_failure env (std_positions env) S0 0) as (N1 & N2 & N3 & N4 & N5).
  { intros j Hj. apply Hf. apply (in_std_positions env). exact Hj. }
  pose proof (interp_loop_NumInterpErrObs env (std_positions env) S0 0) as HO.
  cbv zeta in *. rewrite R1, R2, R3, R4, R5, N1, N2, N3, N4, N5, HO. simpl. auto.
Qed.

Ltac names_neq :=
  solve [assumption | let E := fresh in intros E; symmetry in E; contradiction].

Ltac split_names H :=
  repeat rewrite NoDup_cons_iff in H; simpl In in H;
  repeat match goal with
  | H : _ /\ _ |- _ => destruct H
  | H : ~ (_ \/ _) |- _ => apply Decidable.not_or in H
  end.

Ltac handler_rw L1 L2 L3 L4 L5 L6 :=
  repeat first [ rewrite L1 | rewrite L2 | rewrite L3 by names_neq | rewrite L4 by names_neq
               | rewrite L5 by names_neq | rewrite L6 by names_neq ].

Lemma fillValidator_lookup vn n cls IndStd st (h : Hdl) :
  handler_laws -> NoDup (names_list vn) ->
  let h' := fillValidator vn n cls IndStd st h in
  get_int (name_StdLev vn) h' = StdLev_ cls
  /\ get_int (name_SigAbove vn) h' = SigAbove_ cls
  /\ get_int (name_SigBelow vn) h' = SigBelow_ cls
  /\ get_int (name_IndStd vn) h' = IndStd
  /\ get_int (name_LevErrors vn) h' = LevErrors_ st
  /\ get_float (name_tInterp vn) h' = tInterp_ st
  /\ get_float (name_LogP vn) h' = LogP_ cls
  /\ get_int (name_NumStd vn) h' = repeat (NumStd_ cls) (Z.to_nat n)
  /\ get_int (name_NumSig vn) h' = repeat (NumSig_ cls) (Z.to_nat n)
  /\ (forall nm, ~ In nm (names_list vn) -> get_int nm h' = get_int nm h /\ get_float nm h' = get_float nm h).
Proof.
  intros (L1 & L2 & L3 & L4 & L5 & L6) Hnd. unfold names_list in Hnd. split_names Hnd.
  cbv zeta. unfold fillValidator.
  repeat split; handler_rw L1 L2 L3 L4 L5 L6; try reflexivity;
    match goal with Hnm : ~ In _ (names_list vn) |- _ =>
      unfold names_list in Hnm; simpl In in Hnm;
      repeat match goal with H : ~ (_ \/ _) |- _ => apply Decidable.not_or in H; destruct H end
    end;
    handler_rw L1 L2 L3 L4 L5 L6; reflexivity.
Qed.

(** X9: For [numLevelsToCheck >= 0] (a negative count makes the vector
    constructor fail), [fillValidator] publishes each member under its name,
    [NumStd_] and [NumSig_] as [numLevelsToCheck] copies, and leaves every
    variable of another name as it was. *)
Theorem fillValidator_publishes vn n cls IndStd st (h : Hdl) :
  0 <= n -> handler_laws -> NoDup (names_list vn) ->
  let h' := fillValidator vn n cls IndStd st h in
  get_int (name_StdLev vn) h' = StdLev_ cls
  /\ get_int (name_SigAbove vn) h' = SigAbove_ cls
  /\ get_int (name_SigBelow vn) h' = SigBelow_ cls
  /\ get_int (name_IndStd vn) h' = IndStd
  /\ get_int (name_LevErrors vn) h' = LevErrors_ st
  /\ get_float (name_tInterp vn) h' = tInterp_ st
  /\ get_float (name_LogP vn) h' = LogP_ cls
  /\ get_int (name_NumStd vn) h' = repeat (NumStd_ cls) (Z.to_nat n)
  /\ get_int (name_NumSig vn) h' = repeat (NumSig_ cls) (Z.to_nat n)
  /\ (forall nm, ~ In nm (names_list vn) -> get_int nm h' = get_int nm h /\ get_float nm h' = get_float nm h).
Proof. intros _. exact (fillValidator_lookup vn n cls IndStd st h). Qed.

(** X10: After [runCheck] on valid data with [numLevelsToCheck >= 0],
    [fillValidator] publishes [LevErrors], [tInterp], [NumStd] and [NumSig]
    as vectors of [numLevelsToCheck] entries each. *)
Theorem runCheck_fillValidator_lengths vn inp opts st IndStd (h : Hdl) :
  0 <= numLevelsToCheck inp -> handler_laws -> NoDup (names_list vn) ->
  valid_inputs inp (tFlags st) = true ->
  let env := make_env inp opts (tFlags st) in
  let h' := fillValidator vn (numLevelsToCheck inp) (e_cls env) IndStd (fst (runCheck inp opts st)) h in
  let N := Z.to_nat (numLevelsToCheck inp) in
  length (get_int (name_LevErrors vn) h') = N
  /\ length (get_float (name_tInterp vn) h') = N
  /\ length (get_int (name_NumStd vn) h') = N
  /\ length (get_int (name_NumSig vn) h') = N.
Proof.
  intros _ Hl Hnd Hv. cbv zeta.
  destruct (fillValidator_lookup vn (numLevelsToCheck inp) (e_cls (make_env inp opts (tFlags st)))
              IndStd (fst (runCheck inp opts st)) h Hl Hnd)
    as (_ & _ & _ & _ & P5 & P6 & _ & P8 & P9 & _).
  destruct (runCheck_lengths inp opts st Hv) as (R1 & R2 & _).
  cbv zeta in *. rewrite P5, P6, P8, P9, R1, R2, !repeat_length. auto.
Qed.

End Check.

(** ** Witnesses at concrete inputs *)

#[local] Existing Instance Q_float.
#[local] Existing Instance flags_fix.
#[local] Existing Instance classifier_fix.

Lemma level_BigGap_first_band_witness :
  (exists k, (k < 10)%nat
     /\ level_BigGap (mkEnv options_bands [10000]%Q [0]%Q cls_100) 0
        = hPa_to_Pa (nth k (BigGaps_ options_bands) 0))
  /\ level_BigGap (mkEnv options_bands [10000]%Q [0]%Q cls_100) 0 = 5000%Q.
Proof.
  split; [|vm_compute; reflexivity].
  destruct (level_BigGap_first_band (mkEnv options_bands [10000]%Q [0]%Q cls_100) 0)
    as [[k (Hk & _ & _ & He)]|[Hall _]].
  - exists k; split; [exact Hk | exact He].
  - exfalso. specialize (Hall 9%nat). vm_compute in Hall.
    assert (X := Hall ltac:(lia)). discriminate X.
Defined.

(** The claim's rule picks the 1000 hPa band (250 hPa) for a level at 100 hPa,
    where the code picks the 100 hPa band (50 hPa). *)
Lemma level_BigGap_claim_counterexample :
  ~ (forall (env : Env) j,
       level_BigGap env j
       = bigGap_claim (ICheck_BigGapInit (e_opts env)) (StandardLevels_ (e_opts env))
                      (BigGaps_ (e_opts env)) (round_hPa (PStd_of env j))).
Proof.
  intros H. specialize (H (mkEnv options_bands [10000]%Q [0]%Q cls_100) 0%nat).
  vm_compute in H. discriminate H.
Defined.

Lemma step_tInterp_written_witness :
  skipped (make_env inputs_fix options_fix [0; 0; 0]) [0; 0; 0] 0 = false
  /\ Qeq (get (tInterp_ (fst (step (make_env inputs_fix options_fix [0; 0; 0])
                                 (init_results 3 state_fix, 0) 0))) 1 0%Q) 275%Q.
Proof.
  assert (H : skipped (make_env inputs_fix options_fix [0; 0; 0]) (tFlags (init_results 3 state_fix)) 0 = false)
    by (vm_compute; reflexivity).
  split; [exact H|].
  pose proof (step_tInterp_written _ _ 0 _ H) as T. cbv zeta in T. rewrite T.
  vm_compute; reflexivity.
Defined.

Lemma step_tolerance_test_witness :
  skipped (make_env inputs_fix options_fix [0; 0; 0]) [0; 0; 0] 0 = false
  /\ snd (step (make_env inputs_fix options_fix [0; 0; 0]) (init_results 3 state_fix, 0) 0) = 1.
Proof.
  assert (H : skipped (make_env inputs_fix options_fix [0; 0; 0]) (tFlags (init_results 3 state_fix)) 0 = false)
    by (vm_compute; reflexivity).
  split; [exact H|].
  pose proof (step_tolerance_test _ _ 0 _ H) as T. cbv zeta in T. rewrite T.
  vm_compute; reflexivity.
Defined.

Lemma step_fail_bookkeeping_witness :
  skipped (make_env inputs_fix options_fix [0; 0; 0]) [0; 0; 0] 0 = false
  /\ tol_exceeded (make_env inputs_fix options_fix [0; 0; 0]) 0 = true
  /\ NumAnyErrors (fst (step (make_env inputs_fix options_fix [0; 0; 0]) (init_results 3 state_fix, 0) 0)) = [1]
  /\ nth 1 (LevErrors_ (fst (step (make_env inputs_fix options_fix [0; 0; 0])
                                 (init_results 3 state_fix, 0) 0))) 0 = 0.
Proof.
  assert (H1 : skipped (make_env inputs_fix options_fix [0; 0; 0]) (tFlags (init_results 3 state_fix)) 0 = false)
    by (vm_compute; reflexivity).
  assert (H2 : tol_exceeded (make_env inputs_fix options_fix [0; 0; 0]) 0 = true) by (vm_compute; reflexivity).
  destruct (step_fail_bookkeeping _ _ 0 _ H1 H2) as (_ & HA & _ & _ & _ & _ & HL).
  split; [exact H1|]. split; [exact H2|]. split.
  - rewrite (HA 0 [] eq_refl). reflexivity.
  - rewrite (HL 1%nat ltac:(vm_compute; lia)). vm_compute; reflexivity.
Defined.

Lemma skip_guards_no_effect_witness :
  step (mkEnv options_bands [10000]%Q [0]%Q cls_100) (state_fix, 0) 0 = (state_fix, 0)
  /\ LevErrors_ (fst (runCheck inputs_fix options_fix (mkState [0; 1; 0] [0] [0] [0] [] [])))
     = [-1; -1; -1].
Proof.
  destruct skip_guards_no_effect as [Ha Hb]. split.
  - apply Ha. right; left; reflexivity.
  - destruct (Hb inputs_fix options_fix (mkState [0; 1; 0] [0] [0] [0] [] []) ltac:(vm_compute; reflexivity))
      as (_ & _ & _ & _ & _ & HL).
    + right. intros j Hj. vm_compute in Hj. destruct j as [|j]; [vm_compute; reflexivity | lia].
    + exact HL.
Defined.

Lemma surface_level_never_evaluated_witness :
  step (make_env inputs_fix options_fix [0; 1; 0]) (mkState [0; 1; 0] [0] [0] [0] [] [], 0) 0
  = (mkState [0; 1; 0] [0] [0] [0] [] [], 0)
  /\ get (tInterp_ (fst (runCheck inputs_fix options_fix (mkState [0; 1; 0] [0] [0] [0] [] [])))) 1
         missingValueFloat = missingValueFloat.
Proof.
  destruct surface_level_never_evaluated as [Ha Hb]. split.
  - apply Ha. vm_compute; discriminate.
  - apply Hb; [vm_compute; reflexivity | vm_compute; discriminate].
Defined.

Lemma preflight_no_mutation_witness :
  runCheck (mkInputs 3 [] [280; 285; 270]%Q [280; 276; 270]%Q [0; 0; 0]%Q) options_fix state_fix
  = (state_fix, [warn_empty])
  /\ runCheck (mkInputs 3 [100000; 85000; 70000]%Q [280; 285]%Q [280; 276; 270]%Q [0; 0; 0]%Q)
              options_fix state_fix
     = (state_fix, [warn_size]).
Proof.
  split.
  - apply (preflight_no_mutation _ options_fix state_fix). left; reflexivity.
  - apply (preflight_no_mutation _ options_fix state_fix); simpl; [repeat split; discriminate | left; discriminate].
Defined.

Lemma NumInterpErrObs_once_per_profile_witness :
  NumInterpErrObs (fst (runCheck inputs_fix options_fix state_fix)) = [1].
Proof.
  destruct (NumInterpErrObs_once_per_profile inputs_fix options_fix state_fix 0 []
              ltac:(vm_compute; reflexivity) eq_refl) as [H _].
  apply H. exists 0%nat. split; [vm_compute; lia | vm_compute; reflexivity].
Defined.

Lemma check_order_independent_idempotent_witness :
  run_levels (make_env (SL := classifier6) inputs6 options_fix [0; 0; 0; 0; 0; 0]) [1; 0]%nat
             (init_results 6 state6)
  = fst (runCheck (SL := classifier6) inputs6 options_fix state6)
  /\ tFlags (fst (runCheck inputs_fix options_fix (fst (runCheck inputs_fix options_fix state_fix))))
     = [2; 2; 2].
Proof.
  split.
  - destruct (check_order_independent_idempotent (SL := classifier6)) as [Ha _].
    apply (Ha inputs6 options_fix state6 [1; 0]%nat); [vm_compute; reflexivity | vm_compute; apply perm_swap |].
    repeat constructor; unfold disjoint_if_evaluated; intros _ _ x Hx Hy; vm_compute in Hx, Hy; lia.
  - destruct check_order_independent_idempotent as [_ Hb].
    rewrite (Hb inputs_fix options_fix state_fix eq_refl). vm_compute; reflexivity.
Defined.

Lemma runCheck_flags_only_gain_interp_bit_witness :
  nth 1 (tFlags (fst (runCheck inputs_fix options_fix state_fix))) 0 = 2.
Proof.
  destruct (runCheck_flags_only_gain_interp_bit inputs_fix options_fix state_fix) as [_ Hk].
  destruct (Hk 1%nat ltac:(vm_compute; lia)) as [H|[H _]]; vm_compute in H; [discriminate H | exact H].
Defined.

#[local] Existing Instance assoc_handler.

(** A three-level profile whose middle level agrees with the interpolation. *)
Lemma runCheck_result_lengths_witness :
  valid_inputs inputs_fix (tFlags state_fix) = true
  /\ length (LevErrors_ (fst (runCheck inputs_fix options_fix state_fix))) = 3%nat.
Proof.
  assert (Hv : valid_inputs inputs_fix (tFlags state_fix) = true) by (vm_compute; reflexivity).
  split; [exact Hv|].
  exact (proj1 (runCheck_result_lengths inputs_fix options_fix state_fix ltac:(vm_compute; discriminate) Hv)).
Defined.

Lemma runCheck_counters_move_together_witness :
  exists m, 0 <= m
    /\ NumAnyErrors (fst (runCheck inputs_fix options_fix state_fix)) = [0 + m]
    /\ NumInterpErrors (fst (runCheck inputs_fix options_fix state_fix)) = [0 + m]
    /\ NumInterpErrObs (fst (runCheck inputs_fix options_fix state_fix)) = [if m >? 0 then 0 + 1 else 0].
Proof.
  exact (runCheck_counters_move_together inputs_fix options_fix state_fix 0 [] 0 [] 0 []
           ltac:(vm_compute; reflexivity) eq_refl eq_refl eq_refl).
Defined.

Lemma runCheck_error_count_witness :
  NumAnyErrors (fst (runCheck inputs_fix options_fix state_fix)) = [1]
  /\ NumInterpErrors (fst (runCheck inputs_fix options_fix state_fix)) = [1].
Proof.
  pose proof (runCheck_error_count inputs_fix options_fix state_fix 0 [] 0 []
                ltac:(vm_compute; reflexivity) ltac:(vm_compute; reflexivity) eq_refl eq_refl) as T.
  cbv zeta in T. destruct T as [A B]. rewrite A, B. vm_compute. split; reflexivity.
Defined.

Lemma runCheck_LevErrors_count_witness :
  nth 1 (LevErrors_ (fst (runCheck inputs_fix options_fix state_fix))) 0 = 0.
Proof.
  rewrite (runCheck_LevErrors_count inputs_fix options_fix state_fix 1
             ltac:(vm_compute; reflexivity) ltac:(vm_compute; reflexivity) ltac:(vm_compute; lia)).
  vm_compute. reflexivity.
Defined.

Lemma runCheck_LevErrors_flagged_witness :
  -1 <= nth 1 (LevErrors_ (fst (runCheck inputs_fix options_fix state_fix))) 0
  /\ bsub InterpolationFlag (nth 1 (tFlags (fst (runCheck inputs_fix options_fix state_fix))) 0).
Proof.
  destruct (runCheck_LevErrors_flagged inputs_fix options_fix state_fix 1
              ltac:(vm_compute; reflexivity) ltac:(vm_compute; lia)) as [A B].
  split; [exact A|]. apply B; [vm_compute; lia | vm_compute; discriminate].
Defined.

Lemma runCheck_tInterp_unevaluated_witness :
  get (tInterp_ (fst (runCheck inputs_fix options_fix state_fix))) 0 missingValueFloat
  = missingValueFloat.
Proof.
  apply (runCheck_tInterp_unevaluated inputs_fix options_fix state_fix 0 ltac:(vm_compute; reflexivity)).
  intros j Hj E. destruct j as [|j].
  - vm_compute in E. discriminate E.
  - vm_compute in Hj. lia.
Defined.

Lemma runCheck_tInterp_evaluated_witness :
  get (tInterp_ (fst (runCheck inputs_fix options_fix state_fix))) 1 missingValueFloat
  = interp_value (make_env inputs_fix options_fix [0; 0; 0]) 0.
Proof.
  assert (Hl : 0 <= nth 0 (StdLev_ (e_cls (make_env inputs_fix options_fix [0; 0; 0]))) 0 < 3)
    by (change (0 <= 1 < 3); lia).
  exact (runCheck_tInterp_evaluated inputs_fix options_fix state_fix 0
           ltac:(vm_compute; reflexivity) ltac:(vm_compute; reflexivity)
           ltac:(vm_compute; lia) ltac:(vm_compute; reflexivity) Hl
           ltac:(intros j' Hj' Hne; vm_compute in Hj'; lia)).
Defined.

Lemma runCheck_no_failure_frame_witness :
  tFlags (fst (runCheck (mkInputs 3 [100000; 85000; 70000]%Q [280; 276; 270]%Q [280; 276; 270]%Q
                                  [0; 0; 0]%Q) options_fix state_fix)) = [0; 0; 0]
  /\ LevErrors_ (fst (runCheck (mkInputs 3 [100000; 85000; 70000]%Q [280; 276; 270]%Q
                                        [280; 276; 270]%Q [0; 0; 0]%Q) options_fix state_fix))
     = [-1; -1; -1].
Proof.
  destruct (runCheck_no_failure_frame
              (mkInputs 3 [100000; 85000; 70000]%Q [280; 276; 270]%Q [280; 276; 270]%Q [0; 0; 0]%Q)
              options_fix state_fix ltac:(vm_compute; reflexivity)) as (A & _ & _ & _ & B).
  - intros j Hj. destruct j as [|j]; [vm_compute; reflexivity | vm_compute in Hj; lia].
  - split; [exact A | exact B].
Defined.

Lemma fillValidator_publishes_witness :
  get_int "NumStd" (fillValidator names_fix 3 cls_fix [1] state_fix ([] : list (string * hval)))
  = [1; 1; 1].
Proof.
  assert (HL : handler_laws (DH := assoc_handler)).
  { unfold handler_laws; simpl; unfold assoc_find; repeat split; intros; simpl;
      try (rewrite String.eqb_refl; reflexivity);
      match goal with Hne : ?a <> ?b |- _ =>
        destruct (String.eqb b a) eqn:E; [apply String.eqb_eq in E; congruence | reflexivity]
      end. }
  assert (HN : NoDup (names_list names_fix)).
  { unfold names_list, names_fix; simpl.
    repeat constructor; simpl; intros Hin; repeat destruct Hin as [Hin|Hin]; discriminate Hin || exact Hin. }
  exact (proj1 (proj2 (proj2 (proj2 (proj2 (proj2 (proj2 (proj2
           (fillValidator_publishes names_fix 3 cls_fix [1] state_fix [] ltac:(lia) HL HN))))))))).
Defined.

Lemma runCheck_fillValidator_lengths_witness :
  length (get_int "LevErrors" (fillValidator names_fix 3 cls_fix [1]
                                 (fst (runCheck inputs_fix options_fix state_fix))
                                 ([] : list (string * hval)))) = 3%nat.
Proof.
  assert (HL : handler_laws (DH := assoc_handler)).
  { unfold handler_laws; simpl; unfold assoc_find; repeat split; intros; simpl;
      try (rewrite String.eqb_refl; reflexivity);
      match goal with Hne : ?a <> ?b |- _ =>
        destruct (String.eqb b a) eqn:E; [apply String.eqb_eq in E; congruence | reflexivity]
      end. }
  assert (HN : NoDup (names_list names_fix)).
  { unfold names_list, names_fix; simpl.
    repeat constructor; simpl; intros Hin; repeat destruct Hin as [Hin|Hin]; discriminate Hin || exact Hin. }
  exact (proj1 (runCheck_fillValidator_lengths names_fix inputs_fix options_fix state_fix [1] []
                  ltac:(vm_compute; discriminate) HL HN ltac:(vm_compute; reflexivity))).
Defined.
